(** * Rigid multiblob Metropolis sampler: energy kernel and accept/reject loop

    Shallow embedding of
    - [many_bodyMCMC/many_body_potential_pycuda.py]: the CUDA kernel
      [potential_from_position_blobs] with its two device helpers, the launch
      geometry heuristic and the host wrapper [blobs_potential];
    - [many_bodyMCMC/many_body_MCMC.py]: [get_blobs_r_vectors] and one
      iteration of the Markov chain loop.

    Numbers.  The program computes with IEEE binary64 values.  They are
    modelled by [double]: a real number or one of the three special values
    (plus infinity, minus infinity, not-a-number), with the IEEE rules for the
    special values and exact arithmetic on the finite ones.  Rounding,
    overflow and underflow of finite results and the sign of zero are
    idealised away (a zero is a positive zero, and the exponential of a finite
    number is a positive real): what is proved of finite values is proved in
    exact arithmetic, and the properties that depend on it say so.  The C
    [int] of the kernel is a 32 bit integer; the conversion from [double]
    truncates toward zero and saturates, as the CUDA conversion does.  Array
    indices and loop counters are natural numbers. *)

From Stdlib Require Import Reals Lra Lia ZArith List Bool Permutation.
From Stdlib Require Import Zfloor.
Import ListNotations.

Local Open Scope R_scope.

(** ** Boolean comparisons on reals *)

Definition Rltb (x y : R) : bool := if Rlt_dec x y then true else false.
Definition Reqb0 (x : R) : bool := if Req_dec_T x 0 then true else false.

(** ** The type of doubles *)

Inductive double : Type :=
| Fin (r : R)
| PInf
| NInf
| NaN.

Declare Scope double_scope.
Delimit Scope double_scope with D.
Bind Scope double_scope with double.

(** [r] times plus infinity: the sign of [r] decides, a zero gives NaN. *)
Definition inf_of_sign (r : R) : double :=
  if Rltb 0 r then PInf else if Rltb r 0 then NInf else NaN.

Definition dneg (x : double) : double :=
  match x with
  | Fin a => Fin (- a)
  | PInf => NInf
  | NInf => PInf
  | NaN => NaN
  end.

Definition dadd (x y : double) : double :=
  match x, y with
  | NaN, _ | _, NaN => NaN
  | Fin a, Fin b => Fin (a + b)
  | PInf, NInf | NInf, PInf => NaN
  | PInf, _ | _, PInf => PInf
  | NInf, _ | _, NInf => NInf
  end.

Definition dsub (x y : double) : double := dadd x (dneg y).

Definition dmul (x y : double) : double :=
  match x, y with
  | NaN, _ | _, NaN => NaN
  | Fin a, Fin b => Fin (a * b)
  | Fin a, PInf | PInf, Fin a => inf_of_sign a
  | Fin a, NInf | NInf, Fin a => inf_of_sign (- a)
  | PInf, PInf | NInf, NInf => PInf
  | PInf, NInf | NInf, PInf => NInf
  end.

Definition ddiv (x y : double) : double :=
  match x, y with
  | NaN, _ | _, NaN => NaN
  | Fin a, Fin b => if Reqb0 b then inf_of_sign a else Fin (a / b)
  | Fin _, (PInf | NInf) => Fin 0
  | PInf, Fin b => if Rltb b 0 then NInf else PInf
  | NInf, Fin b => if Rltb b 0 then PInf else NInf
  | (PInf | NInf), (PInf | NInf) => NaN
  end.

Definition dexp (x : double) : double :=
  match x with
  | Fin a => Fin (exp a)
  | PInf => PInf
  | NInf => Fin 0
  | NaN => NaN
  end.

Definition dsqrt (x : double) : double :=
  match x with
  | Fin a => if Rltb a 0 then NaN else Fin (sqrt a)
  | PInf => PInf
  | NInf => NaN
  | NaN => NaN
  end.

(** Comparisons: every comparison with a NaN is false. *)
Definition dlt (x y : double) : bool :=
  match x, y with
  | NaN, _ | _, NaN => false
  | Fin a, Fin b => Rltb a b
  | _, NInf => false
  | PInf, _ => false
  | NInf, _ => true
  | _, PInf => true
  end.

Definition dgt (x y : double) : bool := dlt y x.

Definition dle (x y : double) : bool :=
  match x, y with
  | NaN, _ | _, NaN => false
  | Fin a, Fin b => negb (Rltb b a)
  | NInf, _ => true
  | _, PInf => true
  | _, NInf => false
  | PInf, _ => false
  end.

Definition is_nan (x : double) : bool :=
  match x with NaN => true | _ => false end.

Definition is_finite (x : double) : bool :=
  match x with Fin _ => true | _ => false end.

Notation "x + y" := (dadd x y) : double_scope.
Notation "x - y" := (dsub x y) : double_scope.
Notation "x * y" := (dmul x y) : double_scope.
Notation "x / y" := (ddiv x y) : double_scope.
Notation "- x" := (dneg x) : double_scope.
Notation "x <? y" := (dlt x y) (at level 70) : double_scope.
Notation "x >? y" := (dgt x y) (at level 70) : double_scope.
Notation "x <=? y" := (dle x y) (at level 70) : double_scope.

(** ** The C [int] and its conversions *)

Definition INT_MAX : Z := 2147483647.
Definition INT_MIN : Z := -2147483648.

(** Truncation toward zero of a real number. *)
Definition Ztrunc (r : R) : Z := if Rltb r 0 then Zceil r else Zfloor r.

Definition clamp_int (n : Z) : Z := Z.max INT_MIN (Z.min INT_MAX n).

(** [int(x)] for a double [x]. *)
Definition int_of_double (x : double) : Z :=
  match x with
  | Fin r => clamp_int (Ztrunc r)
  | PInf => INT_MAX
  | NInf => INT_MIN
  | NaN => 0%Z
  end.

(** [int(b)] for the result [b] of a comparison. *)
Definition int_of_bool (b : bool) : Z := if b then 1%Z else 0%Z.

(** The implicit conversion of an [int] operand of a double operation. *)
Definition double_of_int (n : Z) : double := Fin (IZR n).

(** ** The CUDA kernel of [many_body_potential_pycuda.py] *)

Local Open Scope double_scope.

(** Flat device arrays are lists of doubles; [x.[k]] reads entry [k]. *)
Definition aget (x : list double) (k : nat) : double := nth k x NaN.
Notation "x .[ k ]" := (aget x k) (at level 1, format "x .[ k ]").

(** A row of the [(Nblobs, 3)] array of blob coordinates. *)
Definition vec3 : Type := (double * double * double)%type.

Definition vx (v : vec3) : double := fst (fst v).
Definition vy (v : vec3) : double := snd (fst v).
Definition vz (v : vec3) : double := snd v.

(** [np.reshape(r_vectors, number_of_blobs * 3)]: row-major flattening. *)
Fixpoint reshape (r_vectors : list vec3) : list double :=
  match r_vectors with
  | [] => []
  | v :: rest => vx v :: vy v :: vz v :: reshape rest
  end.

(** [one_blob_potential]: gravity plus the screened repulsion of the wall,
    accumulated on [u] (passed by reference in the source). *)
Definition one_blob_potential (u rx ry rz blob_radius debye_length_wall eps_wall weight : double)
  : double :=
  let u := u + weight * rz in
  let u := u + eps_wall * blob_radius * dexp (- (rz - blob_radius) / debye_length_wall)
                 / (rz - blob_radius) in
  u.

(** [blob_blob_potential]: screened repulsion of one pair, accumulated on [u]. *)
Definition blob_blob_potential (u rx ry rz : double) (i j : nat)
                               (debye_length eps blob_radius : double) : double :=
  if negb (Nat.eqb i j) then
    let r := dsqrt (rx * rx + ry * ry + rz * rz) in
    u + eps * dexp (- r / debye_length) / r
  else u.

(** The minimum-image update of one component [r] of a displacement for the
    periodic length [L]: [r - int(r / L + 0.5 * (int(r>0) - int(r<0))) * L]. *)
Definition min_image (r L : double) : double :=
  r - double_of_int
        (int_of_double
           (r / L
            + Fin (1 / 2)
              * double_of_int (int_of_bool (r >? Fin 0) - int_of_bool (r <? Fin 0))))
      * L.

Section Kernel.

Variable x : list double.
Variable n_blobs : nat.
Variables Lx Ly debye_length_wall eps_wall debye_length eps weight blob_radius : double.

(** One iteration of the loop over [j] inside thread [i]. *)
Definition pair_iteration (i : nat) (u : double) (j : nat) : double :=
  let NDIM := 3%nat in
  let ioffset := (i * NDIM)%nat in
  let joffset := (j * NDIM)%nat in
  let rx := x.[ioffset] - x.[joffset] in
  let ry := x.[ioffset + 1] - x.[joffset + 1] in
  let rz := x.[ioffset + 2] - x.[joffset + 2] in
  let rx := if Lx >? Fin 0 then min_image rx Lx else rx in
  let ry := if Ly >? Fin 0 then min_image ry Ly else ry in
  blob_blob_potential u rx ry rz i j debye_length eps blob_radius.

(** The value [u] that thread [i] stores in [total_U[i]]. *)
Definition thread_energy (i : nat) : double :=
  let u := Fin 0 in
  let NDIM := 3%nat in
  let ioffset := (i * NDIM)%nat in
  if x.[ioffset + 2] >? blob_radius then
    let u := one_blob_potential u x.[ioffset] x.[ioffset + 1] x.[ioffset + 2]
                                blob_radius debye_length_wall eps_wall weight in
    fold_left (pair_iteration i) (seq (i + 1) (n_blobs - (i + 1))) u
  else
    Fin 100000 * (- (x.[ioffset + 2] - blob_radius) + Fin 1).

(** The kernel body for the thread of global index [i]: a thread beyond the
    last blob returns without writing, any other writes slot [i]. *)
Definition potential_from_position_blobs (i : nat) : option double :=
  if (n_blobs <=? i)%nat then None else Some (thread_energy i).

End Kernel.

(** ** Launch geometry and host wrapper *)

(** [set_number_of_threads_and_blocks]; [/] is the integer division of
    Python 2, which rounds toward minus infinity as [Z.div] does. *)
Definition set_number_of_threads_and_blocks (num_elements : Z) : Z * Z :=
  let threads_per_block := 512%Z in
  let threads_per_block :=
    if (num_elements / threads_per_block <? 512)%Z then 256%Z else threads_per_block in
  let threads_per_block :=
    if (num_elements / threads_per_block <? 256)%Z then 128%Z else threads_per_block in
  let threads_per_block :=
    if (num_elements / threads_per_block <? 128)%Z then 64%Z else threads_per_block in
  let threads_per_block :=
    if (num_elements / threads_per_block <? 128)%Z then 32%Z else threads_per_block in
  let num_blocks := ((num_elements - 1) / threads_per_block + 1)%Z in
  (threads_per_block, num_blocks).

(** Device memory for [total_U]: a slot is [None] until a thread writes it. *)
Definition device_array : Type := list (option double).

Fixpoint store (U : device_array) (i : nat) (u : double) : device_array :=
  match U, i with
  | [], _ => []
  | _ :: rest, O => Some u :: rest
  | s :: rest, S i' => s :: store rest i' u
  end.

(** A launch of [threads] threads over the output array [U]; the threads write
    distinct slots, so the order in which they run does not matter. *)
Definition launch (kernel : nat -> option double) (threads : nat) (U : device_array)
  : device_array :=
  fold_left (fun U t => match kernel t with Some u => store U t u | None => U end)
            (seq 0 threads) U.

(** Copy back to the host: defined when every slot was written. *)
Fixpoint memcpy_dtoh (U : device_array) : option (list double) :=
  match U with
  | [] => Some []
  | None :: _ => None
  | Some u :: rest =>
      match memcpy_dtoh rest with
      | Some l => Some (u :: l)
      | None => None
      end
  end.

(** [np.sum] of a one-dimensional array. *)
Definition np_sum (U : list double) : double := fold_left dadd U (Fin 0).

(** The keyword arguments read by [blobs_potential]. *)
Record kwargs : Type := mk_kwargs {
  periodic_length : double * double;
  kw_debye_length_wall : double;
  repulsion_strength_wall : double;
  kw_debye_length : double;
  repulsion_strength : double;
  kw_weight : double;
  kw_blob_radius : double
}.

Definition blobs_potential (r_vectors : list vec3) (kw : kwargs) : option double :=
  let number_of_blobs := length r_vectors in
  let '(threads_per_block, num_blocks) :=
    set_number_of_threads_and_blocks (Z.of_nat number_of_blobs) in
  let x := reshape r_vectors in
  let U := launch (potential_from_position_blobs x number_of_blobs
                     (fst (periodic_length kw)) (snd (periodic_length kw))
                     (kw_debye_length_wall kw) (repulsion_strength_wall kw)
                     (kw_debye_length kw) (repulsion_strength kw)
                     (kw_weight kw) (kw_blob_radius kw))
                  (Z.to_nat (threads_per_block * num_blocks))
                  (repeat None number_of_blobs) in
  match memcpy_dtoh U with
  | Some U => Some (np_sum U)
  | None => None
  end.

(** [compute_total_energy]: blobs energy plus the (zero) bodies energy. *)
Definition compute_total_energy (r_vectors : list vec3) (kw : kwargs) : option double :=
  match blobs_potential r_vectors kw with
  | Some u_blobs =>
      let u_bodies := Fin 0 in
      Some (u_blobs + u_bodies)
  | None => None
  end.

(** ** Mathematical description of the energy

    The terms of the energy written on the rows of the coordinate array, to
    state what the kernel computes. *)

(** The sum of a list of doubles, first element first. *)
Fixpoint dsum (l : list double) : double :=
  match l with
  | [] => Fin 0
  | a :: rest => a + dsum rest
  end.

(** The per-thread energies of a coordinate array, in slot order. *)
Definition slot_energies (r_vectors : list vec3) (kw : kwargs) : list double :=
  map (thread_energy (reshape r_vectors) (length r_vectors)
         (fst (periodic_length kw)) (snd (periodic_length kw))
         (kw_debye_length_wall kw) (repulsion_strength_wall kw)
         (kw_debye_length kw) (repulsion_strength kw)
         (kw_weight kw) (kw_blob_radius kw))
      (seq 0 (length r_vectors)).

(** Row [i] of the coordinate array. *)
Definition row (r_vectors : list vec3) (i : nat) : vec3 := nth i r_vectors (NaN, NaN, NaN).

(** Gravity plus wall repulsion of a blob at [v]. *)
Definition one_blob_term (kw : kwargs) (v : vec3) : double :=
  Fin 0 + kw_weight kw * vz v
  + repulsion_strength_wall kw * kw_blob_radius kw
      * dexp (- (vz v - kw_blob_radius kw) / kw_debye_length_wall kw)
      / (vz v - kw_blob_radius kw).

(** The penalty of a blob at or behind the wall. *)
Definition wall_penalty (kw : kwargs) (v : vec3) : double :=
  Fin 100000 * (- (vz v - kw_blob_radius kw) + Fin 1).

(** A lateral component [d] of a displacement, wrapped when the periodic length
    [L] is positive. *)
Definition wrap (L d : double) : double := if L >? Fin 0 then min_image d L else d.

(** The screened repulsion of the blobs at [v] and [w]. *)
Definition blob_blob_term (kw : kwargs) (v w : vec3) : double :=
  let rx := wrap (fst (periodic_length kw)) (vx v - vx w) in
  let ry := wrap (snd (periodic_length kw)) (vy v - vy w) in
  let rz := vz v - vz w in
  let r := dsqrt (rx * rx + ry * ry + rz * rz) in
  repulsion_strength kw * dexp (- r / kw_debye_length kw) / r.

(** A blob is above the wall when the kernel's test [z > blob_radius] holds. *)
Definition above_wall (kw : kwargs) (v : vec3) : bool := vz v >? kw_blob_radius kw.

(** What a single blob contributes whatever the other blobs are. *)
Definition single_term (kw : kwargs) (v : vec3) : double :=
  if above_wall kw v then one_blob_term kw v else wall_penalty kw v.

(** The index pairs [(i, j)] with [i < j < n], each unordered pair once. *)
Definition unordered_pairs (n : nat) : list (nat * nat) :=
  flat_map (fun i => map (pair i) (seq (S i) (n - S i))) (seq 0 n).

(** The pairs whose term the kernel adds: those whose first blob is above the
    wall. *)
Definition counted_pairs (kw : kwargs) (r_vectors : list vec3) : list (nat * nat) :=
  filter (fun p => above_wall kw (row r_vectors (fst p))) (unordered_pairs (length r_vectors)).

Definition pair_energy (kw : kwargs) (r_vectors : list vec3) (p : nat * nat) : double :=
  blob_blob_term kw (row r_vectors (fst p)) (row r_vectors (snd p)).

(** The total energy as the specification describes it: every blob's one-blob
    term plus the blob-blob term of every unordered pair, counted once. *)
Definition total_energy_spec (kw : kwargs) (r_vectors : list vec3) : double :=
  dsum (map (one_blob_term kw) r_vectors)
  + dsum (map (pair_energy kw r_vectors) (unordered_pairs (length r_vectors))).

(** Parameters and a two-blob array used in examples: no periodicity, unit
    lengths, strengths, weight and radius; the first blob is behind the wall,
    the second above it. *)
Definition kw_unit : kwargs :=
  mk_kwargs (Fin 0, Fin 0) (Fin 1) (Fin 1) (Fin 1) (Fin 1) (Fin 1) (Fin 1).

Definition blob_behind : vec3 := (Fin 0, Fin 0, Fin 0).
Definition blob_above : vec3 := (Fin 0, Fin 0, Fin 3).

(** Assignment to entry [i] of a list; out of range it does nothing. *)
Fixpoint update {A : Type} (l : list A) (i : nat) (a : A) : list A :=
  match l, i with
  | [], _ => []
  | _ :: rest, O => a :: rest
  | b :: rest, S i' => b :: update rest i' a
  end.

(** The coordinate array with the rows of blobs [i] and [j] exchanged. *)
Definition swap_rows (r_vectors : list vec3) (i j : nat) : list vec3 :=
  update (update r_vectors i (row r_vectors j)) j (row r_vectors i).

(** The index map of the exchange of [i] and [j]. *)
Definition transpose (i j k : nat) : nat :=
  if (k =? i)%nat then j else if (k =? j)%nat then i else k.

(** The conversion to [int] in the minimum-image update of [d] for the period
    [L] is exact: for finite values and a positive period, the quotient
    [|d / L| + 1/2] is below [2^31]. *)
Definition wrap_exact (L d : double) : Prop :=
  match L, d with
  | Fin l, Fin r => (0 < l -> Rabs (r / l) + 1 / 2 < 2147483648)%R
  | _, _ => True
  end.

Definition pair_wrap_exact (kw : kwargs) (v w : vec3) : Prop :=
  wrap_exact (fst (periodic_length kw)) (vx v - vx w)
  /\ wrap_exact (snd (periodic_length kw)) (vy v - vy w).

(** The sum of the blob-blob terms of a list of rows, each row with the rows
    after it. *)
Fixpoint pair_sum (kw : kwargs) (l : list vec3) : double :=
  match l with
  | [] => Fin 0
  | v :: rest => dsum (map (blob_blob_term kw v) rest) + pair_sum kw rest
  end.

(** The quotient whose integer part the update subtracts. *)
Definition image_quotient (d l : R) : R :=
  (d / l + 1 / 2 * IZR (int_of_bool (Rltb 0 d) - int_of_bool (Rltb d 0)))%R.

Definition blob_aside : vec3 := (Fin 1, Fin 0, Fin 2).

(** ** The Markov chain loop of [many_body_MCMC.py] *)

(** Elementwise operations of numpy on vectors of three doubles. *)
Definition vadd (a b : vec3) : vec3 := (vx a + vx b, vy a + vy b, vz a + vz b).
Definition vscale (a : vec3) (c : double) : vec3 := (vx a * c, vy a * c, vz a * c).

(** The pose operations come from [body.py] and [quaternion.py], which are not
    among the sources; the loop is written over this interface. *)
Class PoseOps : Type := {
  quaternion : Type;
  (** [Quaternion.from_rotation(phi)] *)
  from_rotation : vec3 -> quaternion;
  (** the product [q1 * q2] of two quaternions *)
  quaternion_mul : quaternion -> quaternion -> quaternion;
  (** the blob coordinates of a body with the given reference configuration,
      placed at a location with an orientation *)
  r_vectors_of_pose : list vec3 -> vec3 -> quaternion -> list vec3
}.

Section Chain.

Context {ops : PoseOps}.

(** A rigid body: numpy's [+] and the quaternion product build new objects
    and the loop only rebinds the attributes of a body, never writes into
    the arrays they hold, so the attributes are modelled by their values. *)
Record Body : Type := mk_Body {
  reference_configuration : list vec3;
  location : vec3;
  orientation : quaternion;
  location_new : vec3;
  orientation_new : quaternion
}.

Definition Nblobs (b : Body) : nat := length (reference_configuration b).

(** [body.get_r_vectors(location, orientation)]; without arguments the
    method uses the current pose of the body. *)
Definition get_r_vectors (b : Body) (loc : vec3) (ori : quaternion) : list vec3 :=
  r_vectors_of_pose (reference_configuration b) loc ori.

Definition get_r_vectors_current (b : Body) : list vec3 :=
  get_r_vectors b (location b) (orientation b).

Definition get_r_vectors_new (b : Body) : list vec3 :=
  get_r_vectors b (location_new b) (orientation_new b).

(** The slice assignment [a[lo:hi] = rows] for [rows] of [hi - lo] rows and a
    slice inside the array, where the array keeps its length.  For a slice
    that leaves the array numpy raises an error, which the definition does
    not represent: the properties of the buffer assume one row per blob. *)
Definition slice_assign (a : list vec3) (lo hi : nat) (rows : list vec3) : list vec3 :=
  firstn lo a ++ rows ++ skipn hi a.

(** [np.empty((n, 3))]: rows without a defined content. *)
Definition np_empty (n : nat) : list vec3 := repeat (NaN, NaN, NaN) n.

(** The loop of [get_blobs_r_vectors]. *)
Fixpoint fill_r_vectors (bodies : list Body) (r_vectors : list vec3) (offset : nat)
  : list vec3 :=
  match bodies with
  | [] => r_vectors
  | b :: rest =>
      let num_blobs := Nblobs b in
      let r_vectors :=
        slice_assign r_vectors offset (offset + num_blobs) (get_r_vectors_current b) in
      fill_r_vectors rest r_vectors (offset + num_blobs)
  end.

Definition get_blobs_r_vectors (bodies : list Body) (Nblobs : nat) : list vec3 :=
  fill_r_vectors bodies (np_empty Nblobs) 0.

(** The random numbers one iteration draws: for body [i] the translation
    [np.random.uniform(-max_translation, max_translation, 3)] and the vector
    [np.random.normal(0, 1, 3)], and the number [np.random.uniform(0.0, 1.0)]
    of the acceptance test. *)
Record draws : Type := mk_draws {
  uniform3 : nat -> vec3;
  normal3 : nat -> vec3;
  uniform01 : double
}.

Variable kw : kwargs.
Variable kT : double.
Variable max_angle_shift : double.
Variable rnd : draws.

(** The body of the loop that disturbs the bodies, for the body of index
    [i]: the proposed pose is stored in the body and its blobs are written
    to the rows of [sample_r_vectors] from [blob_index] on. *)
Definition disturb_body (i : nat) (body : Body) (sample_r_vectors : list vec3)
                        (blob_index : nat) : Body * list vec3 * nat :=
  let location_new := vadd (location body) (uniform3 rnd i) in
  let quaternion_shift := from_rotation (vscale (normal3 rnd i) max_angle_shift) in
  let orientation_new := quaternion_mul quaternion_shift (orientation body) in
  let body := mk_Body (reference_configuration body) (location body) (orientation body)
                      location_new orientation_new in
  let sample_r_vectors :=
    slice_assign sample_r_vectors blob_index (blob_index + Nblobs body)
                 (get_r_vectors body (location_new) (orientation_new)) in
  (body, sample_r_vectors, (blob_index + Nblobs body)%nat).

Fixpoint disturb_bodies (i : nat) (bodies : list Body) (sample_r_vectors : list vec3)
                        (blob_index : nat) : list Body * list vec3 :=
  match bodies with
  | [] => ([], sample_r_vectors)
  | body :: rest =>
      let '(body, sample_r_vectors, blob_index) :=
        disturb_body i body sample_r_vectors blob_index in
      let '(rest, sample_r_vectors) :=
        disturb_bodies (S i) rest sample_r_vectors blob_index in
      (body :: rest, sample_r_vectors)
  end.

(** The variables of the main loop. *)
Record chain : Type := mk_chain {
  bodies : list Body;
  sample_r_vectors : list vec3;
  current_state_energy : double;
  accepted_moves : nat
}.

(** Proposal phase of one iteration. *)
Definition propose (st : chain) : list Body * list vec3 :=
  disturb_bodies 0 (bodies st) (sample_r_vectors st) 0.

(** The acceptance test
    [uniform(0,1) < exp(-(sample_state_energy - current_state_energy) / kT)]. *)
Definition accepts (sample_state_energy current_state_energy : double) : bool :=
  uniform01 rnd <? dexp (- (sample_state_energy - current_state_energy) / kT).

(** [body.location, body.orientation = body.location_new, body.orientation_new] *)
Definition commit (body : Body) : Body :=
  mk_Body (reference_configuration body) (location_new body) (orientation_new body)
          (location_new body) (orientation_new body).

(** One iteration of the loop, up to the point where data is saved; [None]
    when the energy evaluation returns no value. *)
Definition mcmc_step (st : chain) : option chain :=
  let '(bodies, sample_r_vectors) := propose st in
  match compute_total_energy sample_r_vectors kw with
  | None => None
  | Some sample_state_energy =>
      if accepts sample_state_energy (current_state_energy st) then
        Some (mk_chain (map commit bodies) sample_r_vectors sample_state_energy
                       (accepted_moves st + 1))
      else
        Some (mk_chain bodies sample_r_vectors (current_state_energy st)
                       (accepted_moves st))
  end.

(** The variables of the loop after an accepted and after a rejected
    proposal, for the bodies and the buffer the proposal phase left and the
    energy of the proposal. *)
Definition accepted_state (st : chain) (bodies : list Body) (sample_r_vectors : list vec3)
                          (sample_state_energy : double) : chain :=
  mk_chain (map commit bodies) sample_r_vectors sample_state_energy (accepted_moves st + 1).

Definition rejected_state (st : chain) (bodies : list Body) (sample_r_vectors : list vec3)
  : chain :=
  mk_chain bodies sample_r_vectors (current_state_energy st) (accepted_moves st).

(** The blobs of all bodies at their current and at their proposed pose. *)
Definition current_blobs (bodies : list Body) : list vec3 :=
  flat_map get_r_vectors_current bodies.

Definition proposed_blobs (bodies : list Body) : list vec3 :=
  flat_map get_r_vectors_new bodies.

Definition total_blobs (bodies : list Body) : nat :=
  list_sum (map Nblobs bodies).

End Chain.

(** ** A model of the pose operations *)

Definition dcos (x : double) : double :=
  match x with Fin a => Fin (cos a) | _ => NaN end.

Definition dsin (x : double) : double :=
  match x with Fin a => Fin (sin a) | _ => NaN end.

(** [x != 0] on doubles. *)
Definition dnonzero (x : double) : bool :=
  match x with Fin a => negb (Reqb0 a) | _ => true end.

(** Modelled from the spec: the quaternions of [quaternion.py], which is not
    among the sources.  A quaternion is its scalar entry [s] and its vector
    entries [p]; it is exposed as four components [(w, x, y, z)]. *)
Definition quat : Type := (double * vec3)%type.

(** Modelled from the spec: [Quaternion.from_rotation] of [quaternion.py],
    which is not among the sources: the rotation of axis-angle vector [phi],
    that is [(cos(|phi|/2), sin(|phi|/2) phi/|phi|)], the identity for a zero
    vector. *)
Definition quat_from_rotation (phi : vec3) : quat :=
  let phi_norm := dsqrt (vx phi * vx phi + vy phi * vy phi + vz phi * vz phi) in
  let s := dcos (phi_norm / Fin 2) in
  if dnonzero phi_norm then
    let c := dsin (phi_norm / Fin 2) in
    (s, (c * (vx phi / phi_norm), c * (vy phi / phi_norm), c * (vz phi / phi_norm)))
  else (s, (Fin 0, Fin 0, Fin 0)).

(** Modelled from the spec: the quaternion product of [quaternion.py], which
    is not among the sources; the proposal left-composes the small rotation
    onto the current orientation with it. *)
Definition quat_mul (q1 q2 : quat) : quat :=
  let '(s1, p1) := q1 in
  let '(s2, p2) := q2 in
  (s1 * s2 - (vx p1 * vx p2 + vy p1 * vy p2 + vz p1 * vz p2),
   (s1 * vx p2 + s2 * vx p1 + (vy p1 * vz p2 - vz p1 * vy p2),
    s1 * vy p2 + s2 * vy p1 + (vz p1 * vx p2 - vx p1 * vz p2),
    s1 * vz p2 + s2 * vz p1 + (vx p1 * vy p2 - vy p1 * vx p2))).

(** Modelled from the spec: the rotation of a reference offset by the rotation
    matrix of an orientation ([quaternion.py] and [body.py] are not among the
    sources). *)
Definition rotate (q : quat) (v : vec3) : vec3 :=
  let '(s, p) := q in
  let diag := s * s - Fin (1 / 2) in
  (Fin 2 * ((vx p * vx p + diag) * vx v + (vx p * vy p - s * vz p) * vy v
            + (vx p * vz p + s * vy p) * vz v),
   Fin 2 * ((vy p * vx p + s * vz p) * vx v + (vy p * vy p + diag) * vy v
            + (vy p * vz p - s * vx p) * vz v),
   Fin 2 * ((vz p * vx p - s * vy p) * vx v + (vz p * vy p + s * vx p) * vy v
            + (vz p * vz p + diag) * vz v)).

(** Modelled from the spec: the blob projection [get_r_vectors] of [body.py],
    which is not among the sources: every blob is at
    [location + rotate(orientation, reference_offset)]. *)
Definition rigid_r_vectors (reference : list vec3) (loc : vec3) (ori : quat) : list vec3 :=
  map (fun offset => vadd loc (rotate ori offset)) reference.

#[export] Instance rigid_pose : PoseOps := {
  quaternion := quat;
  from_rotation := quat_from_rotation;
  quaternion_mul := quat_mul;
  r_vectors_of_pose := rigid_r_vectors
}.

(** ** A sphere near the wall *)

(** Parameters with gravity only acting on a blob above the wall: unit
    weight, radius and lengths, no wall repulsion. *)
Definition kw_gravity : kwargs :=
  mk_kwargs (Fin 0, Fin 0) (Fin 1) (Fin 0) (Fin 1) (Fin 1) (Fin 1) (Fin 1).

Definition identity_quat : quat := (Fin 1, (Fin 0, Fin 0, Fin 0)).

(** A body of one blob at its centre, with the identity orientation. *)
Definition sphere (loc : vec3) : Body :=
  mk_Body [(Fin 0, Fin 0, Fin 0)] loc identity_quat loc identity_quat.

(** The loop variables for one sphere at [loc] with current energy [e]. *)
Definition sphere_chain (loc : vec3) (e : double) : chain :=
  mk_chain [sphere loc] [loc] e 0.

(** Draws that move a body down by one radius without turning it, with the
    number [u] for the acceptance test. *)
Definition draws_down (u : double) : draws :=
  mk_draws (fun _ => (Fin 0, Fin 0, Fin (-1))) (fun _ => (Fin 0, Fin 0, Fin 0)) u.

(** A sphere well above the wall, one that the draws move behind the wall,
    and one whose location has a not-a-number component; the current energy
    is the energy of the current pose. *)
Definition chain_high : chain := sphere_chain (Fin 0, Fin 0, Fin (5 / 2)) (Fin (5 / 2)).
Definition chain_low : chain := sphere_chain (Fin 0, Fin 0, Fin (3 / 2)) (Fin (3 / 2)).
Definition chain_nan : chain := sphere_chain (NaN, Fin 0, Fin (3 / 2)) (Fin (3 / 2)).

(** ** Finite inputs *)

(** A row and a parameter set with finite entries. *)
Definition fin3 (p : R * R * R) : vec3 := (Fin (fst (fst p)), Fin (snd (fst p)), Fin (snd p)).

Definition finite_kwargs (lx ly dlw ew dl e w a : R) : kwargs :=
  mk_kwargs (Fin lx, Fin ly) (Fin dlw) (Fin ew) (Fin dl) (Fin e) (Fin w) (Fin a).

(** A double that is finite or plus infinity. *)
Definition finite_or_pinf (d : double) : bool :=
  match d with Fin _ | PInf => true | NInf | NaN => false end.

(** Parameters without blob-blob repulsion, and two blobs at the same place
    above the wall. *)
Definition kw_no_repulsion : kwargs :=
  mk_kwargs (Fin 0, Fin 0) (Fin 1) (Fin 1) (Fin 1) (Fin 0) (Fin 1) (Fin 1).

Definition coincident_blobs : list vec3 := [(Fin 0, Fin 0, Fin 2); (Fin 0, Fin 0, Fin 2)].

(** Parameters with a period of one along x, and a blob above the wall. *)
Definition kw_periodic_x : kwargs :=
  mk_kwargs (Fin 1, Fin 0) (Fin 1) (Fin 1) (Fin 1) (Fin 1) (Fin 1) (Fin 1).

Definition blob_near : vec3 := (Fin 0, Fin 0, Fin 2).

(** Parameters with the period [2^-31] along x, and a blob above the wall at
    x = 2, which is [2^32] periods away from [blob_near]. *)
Definition kw_short_period : kwargs :=
  mk_kwargs (Fin (1 / 2147483648), Fin 0) (Fin 1) (Fin 1) (Fin 1) (Fin 1) (Fin 1) (Fin 1).

Definition blob_right : vec3 := (Fin 2, Fin 0, Fin 2).

(** ** Thread schedules *)

(** A launch whose threads run in the order of the list [order]; the hardware
    fixes no order, [launch] is the case of the increasing one. *)
Definition launch_in_order (kernel : nat -> option double) (order : list nat)
                           (U : device_array) : device_array :=
  fold_left (fun U t => match kernel t with Some u => store U t u | None => U end)
            order U.

(** The energy returned by [blobs_potential] when the threads of the launch
    run in the order [order]. *)
Definition blobs_potential_in_order (order : list nat) (r_vectors : list vec3) (kw : kwargs)
  : option double :=
  let number_of_blobs := length r_vectors in
  let x := reshape r_vectors in
  let U := launch_in_order
             (potential_from_position_blobs x number_of_blobs
                (fst (periodic_length kw)) (snd (periodic_length kw))
                (kw_debye_length_wall kw) (repulsion_strength_wall kw)
                (kw_debye_length kw) (repulsion_strength kw)
                (kw_weight kw) (kw_blob_radius kw))
             order (repeat None number_of_blobs) in
  match memcpy_dtoh U with
  | Some U => Some (np_sum U)
  | None => None
  end.

(** A point moved by [l] along x. *)
Definition shift_x (p : R * R * R) (l : R) : R * R * R :=
  ((fst (fst p) + l)%R, snd (fst p), snd p).

(** ** Runs of the chain *)

Section Runs.

Context {ops : PoseOps}.

Variable kw : kwargs.
Variable kT : double.
Variable max_angle_shift : double.

(** The state of the loop variables when the loop is entered: the buffer
    holds the blobs of the bodies, the current energy is the energy of that
    buffer and no move has been accepted. *)
Definition initial_chain (bodies : list Body) : option chain :=
  let Nblobs := total_blobs bodies in
  let sample_r_vectors := get_blobs_r_vectors bodies Nblobs in
  match compute_total_energy sample_r_vectors kw with
  | Some current_state_energy => Some (mk_chain bodies sample_r_vectors current_state_energy 0)
  | None => None
  end.

(** Consecutive iterations of the loop, one for each element of the list of
    draws; saving data does not change the loop variables. *)
Fixpoint run_chain (rnds : list draws) (st : chain) : option chain :=
  match rnds with
  | [] => Some st
  | rnd :: rest =>
      match mcmc_step kw kT max_angle_shift rnd st with
      | Some st' => run_chain rest st'
      | None => None
      end
  end.

(** The current energy is the energy of the blobs of the current poses, and
    the buffer has one row per blob. *)
Definition energy_consistent (st : chain) : Prop :=
  compute_total_energy (current_blobs (bodies st)) kw = Some (current_state_energy st)
  /\ length (sample_r_vectors st) = total_blobs (bodies st).

(** The part of a body that an iteration reads. *)
Definition current_pose (b : Body) : list vec3 * vec3 * quaternion :=
  (reference_configuration b, location b, orientation b).

End Runs.

(** The loop that finds the largest body length, from the lengths of the
    bodies in creation order. *)
Definition max_body_length (body_lengths : list double) : double :=
  fold_left (fun max_body_length body_length =>
               if body_length >? max_body_length then body_length else max_body_length)
            body_lengths (Fin 0).

(** [chain_low] with other scratch data, and a sphere whose height is a NaN. *)
Definition chain_low_scratch : chain :=
  mk_chain [mk_Body [(Fin 0, Fin 0, Fin 0)] (Fin 0, Fin 0, Fin (3 / 2)) identity_quat
                    (Fin 9, Fin 9, Fin 9) identity_quat]
           [(Fin 7, Fin 7, Fin 7)] (Fin (3 / 2)) 0.

Definition chain_nan_height : chain := sphere_chain (Fin 0, Fin 0, NaN) NaN.

(** ** The acceptance ratios that the script prints *)

(** [accepted_moves / (step+1.0-read.initial_step)], printed when data is
    saved inside the loop. *)
Definition acceptance_ratio (accepted_moves : nat) (step initial_step : Z) : double :=
  double_of_int (Z.of_nat accepted_moves)
  / (double_of_int step + Fin 1 - double_of_int initial_step).

(** [accepted_moves / (step+2.0-read.initial_step)], printed after the loop,
    where [step] is the index of the last iteration. *)
Definition final_acceptance_ratio (accepted_moves : nat) (step initial_step : Z) : double :=
  double_of_int (Z.of_nat accepted_moves)
  / (double_of_int step + Fin 2 - double_of_int initial_step).

(** ** The energy function as a parameter of the iteration *)

Section Evaluator.

Context {ops : PoseOps}.

(** One iteration of the loop with the energy function that the script calls
    as a parameter; [mcmc_step] is the case of [compute_total_energy] with the
    options [kw].  It records which array the iteration passes to the energy
    function and what it does with the value returned. *)
Definition mcmc_step_with (evaluate : list vec3 -> option double)
                          (kT max_angle_shift : double) (rnd : draws) (st : chain)
  : option chain :=
  let '(bodies, sample_r_vectors) := propose max_angle_shift rnd st in
  match evaluate sample_r_vectors with
  | None => None
  | Some sample_state_energy =>
      if accepts kT rnd sample_state_energy (current_state_energy st) then
        Some (mk_chain (map commit bodies) sample_r_vectors sample_state_energy
                       (accepted_moves st + 1))
      else
        Some (mk_chain bodies sample_r_vectors (current_state_energy st)
                       (accepted_moves st))
  end.

(** The outcomes of the acceptance test in consecutive iterations, one for
    each element of the list of draws: [true] for an iteration whose proposal
    passed the test. *)
Fixpoint run_decisions (kw : kwargs) (kT max_angle_shift : double)
                       (rnds : list draws) (st : chain) : list bool :=
  match rnds with
  | [] => []
  | rnd :: rest =>
      match compute_total_energy (snd (propose max_angle_shift rnd st)) kw,
            mcmc_step kw kT max_angle_shift rnd st with
      | Some sample_state_energy, Some st' =>
          accepts kT rnd sample_state_energy (current_state_energy st)
          :: run_decisions kw kT max_angle_shift rest st'
      | _, _ => []
      end
  end.

End Evaluator.

(** * Properties *)

(** ** Comparisons on reals *)

Lemma Rltb_true (x y : R) : x < y -> Rltb x y = true.
Proof. intros H; unfold Rltb; destruct (Rlt_dec x y); [reflexivity | contradiction]. Qed.

Lemma Rltb_false (x y : R) : ~ x < y -> Rltb x y = false.
Proof. intros H; unfold Rltb; destruct (Rlt_dec x y); [contradiction | reflexivity]. Qed.

Lemma Rltb_spec (x y : R) : reflect (x < y) (Rltb x y).
Proof. unfold Rltb; destruct (Rlt_dec x y); constructor; assumption. Qed.

Lemma Reqb0_true (x : R) : x = 0 -> Reqb0 x = true.
Proof. intros H; unfold Reqb0; destruct (Req_dec_T x 0); [reflexivity | contradiction]. Qed.

Lemma Reqb0_false (x : R) : x <> 0 -> Reqb0 x = false.
Proof. intros H; unfold Reqb0; destruct (Req_dec_T x 0); [contradiction | reflexivity]. Qed.

Lemma Reqb0_spec (x : R) : reflect (x = 0) (Reqb0 x).
Proof. unfold Reqb0; destruct (Req_dec_T x 0); constructor; assumption. Qed.

(** ** Algebra of doubles *)

Lemma Fin_eq (a b : R) : a = b -> Fin a = Fin b.
Proof. now intros ->. Qed.

Lemma dadd_comm (a b : double) : a + b = b + a.
Proof. destruct a, b; simpl; try reflexivity; f_equal; lra. Qed.

Lemma dadd_assoc (a b c : double) : a + (b + c) = a + b + c.
Proof. destruct a, b, c; simpl; try reflexivity; f_equal; lra. Qed.

Lemma dadd_0_l (a : double) : Fin 0 + a = a.
Proof. destruct a; simpl; try reflexivity; f_equal; lra. Qed.

Lemma dadd_0_r (a : double) : a + Fin 0 = a.
Proof. rewrite dadd_comm; apply dadd_0_l. Qed.

Lemma dneg_involutive (a : double) : - - a = a.
Proof. destruct a; simpl; try reflexivity; f_equal; lra. Qed.

Lemma dneg_add (a b : double) : - (a + b) = - a + - b.
Proof. destruct a, b; simpl; try reflexivity; f_equal; lra. Qed.

Lemma dneg_sub (a b : double) : - (a - b) = b - a.
Proof. unfold dsub; rewrite dneg_add, dneg_involutive; apply dadd_comm. Qed.

Lemma inf_of_sign_opp_opp (a : R) : inf_of_sign (- - a) = inf_of_sign a.
Proof. now rewrite Ropp_involutive. Qed.

Lemma dmul_neg_neg (a : double) : (- a) * (- a) = a * a.
Proof. destruct a; simpl; try reflexivity; f_equal; lra. Qed.

(** Sums of lists of doubles. *)

Lemma fold_left_dadd (l : list double) (u : double) : fold_left dadd l u = u + dsum l.
Proof.
  revert u; induction l as [|a l IH]; intros u; cbn [fold_left dsum].
  - now rewrite dadd_0_r.
  - now rewrite IH, dadd_assoc.
Qed.

Lemma np_sum_dsum (l : list double) : np_sum l = dsum l.
Proof. unfold np_sum; now rewrite fold_left_dadd, dadd_0_l. Qed.

Lemma dsum_app (l1 l2 : list double) : dsum (l1 ++ l2) = dsum l1 + dsum l2.
Proof.
  induction l1 as [|a l1 IH]; cbn [dsum app].
  - now rewrite dadd_0_l.
  - now rewrite IH, dadd_assoc.
Qed.

Lemma dsum_Permutation (l1 l2 : list double) : Permutation l1 l2 -> dsum l1 = dsum l2.
Proof.
  induction 1 as [|a l1 l2 _ IH|a b l|l1 l2 l3 _ IH1 _ IH2]; cbn [dsum].
  - reflexivity.
  - now rewrite IH.
  - now rewrite !dadd_assoc, (dadd_comm b a).
  - now rewrite IH1.
Qed.

Lemma dsum_map_add {A : Type} (f g : A -> double) (l : list A) :
  dsum (map (fun a => f a + g a) l) = dsum (map f l) + dsum (map g l).
Proof.
  induction l as [|a l IH]; cbn [dsum map].
  - now rewrite dadd_0_l.
  - rewrite IH, !dadd_assoc. f_equal.
    rewrite <- !dadd_assoc. f_equal. apply dadd_comm.
Qed.

Lemma dsum_map_ext_in {A : Type} (f g : A -> double) (l : list A) :
  (forall a, In a l -> f a = g a) -> dsum (map f l) = dsum (map g l).
Proof. intros H; f_equal; now apply map_ext_in. Qed.

(** ** The launch writes every slot of [total_U] *)

Lemma threads_cover_blobs (n : Z) :
  (0 <= n)%Z ->
  let '(threads_per_block, num_blocks) := set_number_of_threads_and_blocks n in
  (n <= threads_per_block * num_blocks)%Z.
Proof.
  intros Hn. unfold set_number_of_threads_and_blocks.
  repeat match goal with
         | |- context [if ?c then _ else _] => destruct c
         end;
    match goal with
    | |- (_ <= ?b * ((_ - 1) / ?b + 1))%Z =>
        pose proof (Z.mul_succ_div_gt (n - 1) b ltac:(lia)); lia
    end.
Qed.

Lemma store_app (l1 l2 : device_array) (s : option double) (u : double) :
  store (l1 ++ s :: l2) (length l1) u = l1 ++ Some u :: l2.
Proof. induction l1 as [|a l1 IH]; simpl; [reflexivity | now rewrite IH]. Qed.

Lemma memcpy_dtoh_written (l : list double) : memcpy_dtoh (map Some l) = Some l.
Proof. induction l as [|a l IH]; simpl; [reflexivity | now rewrite IH]. Qed.

Section Launch.

Variable kernel : nat -> option double.
Variable f : nat -> double.
Variable n : nat.
Hypothesis kernel_writes : forall i, (i < n)%nat -> kernel i = Some (f i).
Hypothesis kernel_guard : forall i, (n <= i)%nat -> kernel i = None.

Lemma launch_prefix (m : nat) :
  (m <= n)%nat ->
  launch kernel m (repeat None n) = map Some (map f (seq 0 m)) ++ repeat None (n - m).
Proof.
  unfold launch. induction m as [|m IH]; intros Hm.
  - simpl. now rewrite Nat.sub_0_r.
  - rewrite seq_S, fold_left_app, IH by lia. cbn [fold_left Nat.add].
    rewrite kernel_writes by lia.
    replace (n - m)%nat with (S (n - S m)) by lia. cbn [repeat].
    replace m with (length (map Some (map f (seq 0 m)))) at 3
      by now rewrite !length_map, length_seq.
    rewrite store_app, !map_app, <- app_assoc. reflexivity.
Qed.

Lemma launch_beyond (m : nat) (U : device_array) :
  fold_left (fun U t => match kernel t with Some u => store U t u | None => U end)
            (seq n m) U = U.
Proof.
  revert U. induction m as [|m IH]; intros U; [reflexivity|].
  rewrite seq_S, fold_left_app, IH. cbn [fold_left].
  now rewrite kernel_guard by lia.
Qed.

Lemma launch_all (threads : nat) :
  (n <= threads)%nat ->
  launch kernel threads (repeat None n) = map Some (map f (seq 0 n)).
Proof.
  intros Hn. replace threads with (n + (threads - n))%nat by lia.
  unfold launch. rewrite seq_app, fold_left_app.
  fold (launch kernel n (repeat None n)).
  rewrite launch_prefix by lia. rewrite Nat.sub_diag, app_nil_r.
  apply launch_beyond.
Qed.

End Launch.

Lemma blobs_potential_slots (r_vectors : list vec3) (kw : kwargs) :
  blobs_potential r_vectors kw = Some (dsum (slot_energies r_vectors kw)).
Proof.
  unfold blobs_potential.
  pose proof (threads_cover_blobs (Z.of_nat (length r_vectors)) ltac:(lia)) as Hc.
  destruct (set_number_of_threads_and_blocks _) as [tpb nb].
  rewrite launch_all with (f := thread_energy (reshape r_vectors) (length r_vectors)
         (fst (periodic_length kw)) (snd (periodic_length kw))
         (kw_debye_length_wall kw) (repulsion_strength_wall kw)
         (kw_debye_length kw) (repulsion_strength kw)
         (kw_weight kw) (kw_blob_radius kw)).
  - rewrite memcpy_dtoh_written, np_sum_dsum. reflexivity.
  - intros i Hi. unfold potential_from_position_blobs.
    destruct (Nat.leb_spec (length r_vectors) i); [lia | reflexivity].
  - intros i Hi. unfold potential_from_position_blobs.
    destruct (Nat.leb_spec (length r_vectors) i); [reflexivity | lia].
  - lia.
Qed.

Lemma compute_total_energy_slots (r_vectors : list vec3) (kw : kwargs) :
  compute_total_energy r_vectors kw = Some (dsum (slot_energies r_vectors kw)).
Proof.
  unfold compute_total_energy. now rewrite blobs_potential_slots, dadd_0_r.
Qed.

(** ** The kernel on rows *)

Lemma reshape_get (r_vectors : list vec3) (i : nat) :
  (reshape r_vectors).[i * 3] = vx (row r_vectors i) /\
  (reshape r_vectors).[i * 3 + 1] = vy (row r_vectors i) /\
  (reshape r_vectors).[i * 3 + 2] = vz (row r_vectors i).
Proof.
  unfold aget, row. revert i.
  induction r_vectors as [|v rest IH]; intros [|i]; cbn [reshape nth Nat.mul Nat.add];
    try (repeat split; reflexivity).
  apply IH.
Qed.

Lemma map_row_seq (r_vectors : list vec3) :
  map (row r_vectors) (seq 0 (length r_vectors)) = r_vectors.
Proof.
  unfold row. induction r_vectors as [|v rest IH]; [reflexivity|].
  cbn [length seq map nth]. rewrite <- seq_shift, map_map. cbn [nth].
  now rewrite IH.
Qed.

Lemma pair_iteration_row (kw : kwargs) (r_vectors : list vec3) (i j : nat) (u : double) :
  i <> j ->
  pair_iteration (reshape r_vectors)
    (fst (periodic_length kw)) (snd (periodic_length kw))
    (kw_debye_length kw) (repulsion_strength kw) (kw_blob_radius kw) i u j
  = u + blob_blob_term kw (row r_vectors i) (row r_vectors j).
Proof.
  intros Hij. unfold pair_iteration, blob_blob_potential, blob_blob_term, wrap.
  destruct (reshape_get r_vectors i) as (-> & -> & ->).
  destruct (reshape_get r_vectors j) as (-> & -> & ->).
  apply Nat.eqb_neq in Hij. rewrite Hij. reflexivity.
Qed.

Lemma pair_loop_row (kw : kwargs) (r_vectors : list vec3) (i : nat) (js : list nat) (u : double) :
  (forall j, In j js -> i <> j) ->
  fold_left (pair_iteration (reshape r_vectors)
               (fst (periodic_length kw)) (snd (periodic_length kw))
               (kw_debye_length kw) (repulsion_strength kw) (kw_blob_radius kw) i) js u
  = u + dsum (map (fun j => pair_energy kw r_vectors (i, j)) js).
Proof.
  revert u. induction js as [|j js IH]; intros u Hjs; cbn [fold_left map dsum].
  - now rewrite dadd_0_r.
  - rewrite pair_iteration_row by (apply Hjs; now left).
    rewrite IH by (intros; apply Hjs; now right).
    now rewrite dadd_assoc.
Qed.

(** The value of slot [i]: the penalty for a blob that is not above the wall,
    otherwise the one-blob term and the terms of the pairs [(i, j)], [j > i]. *)
Lemma thread_energy_row (kw : kwargs) (r_vectors : list vec3) (i : nat) :
  thread_energy (reshape r_vectors) (length r_vectors)
    (fst (periodic_length kw)) (snd (periodic_length kw))
    (kw_debye_length_wall kw) (repulsion_strength_wall kw)
    (kw_debye_length kw) (repulsion_strength kw)
    (kw_weight kw) (kw_blob_radius kw) i
  = if above_wall kw (row r_vectors i) then
      one_blob_term kw (row r_vectors i)
      + dsum (map (fun j => pair_energy kw r_vectors (i, j))
                  (seq (S i) (length r_vectors - S i)))
    else wall_penalty kw (row r_vectors i).
Proof.
  unfold thread_energy, above_wall, wall_penalty.
  destruct (reshape_get r_vectors i) as (-> & -> & ->).
  destruct (vz (row r_vectors i) >? kw_blob_radius kw); [|reflexivity].
  rewrite Nat.add_1_r, pair_loop_row.
  - reflexivity.
  - intros j Hj. apply in_seq in Hj. lia.
Qed.

(** ** The pairs that enter the total *)

Lemma in_unordered_pairs (n i j : nat) :
  In (i, j) (unordered_pairs n) <-> (i < j < n)%nat.
Proof.
  unfold unordered_pairs. rewrite in_flat_map. split.
  - intros (k & Hk & Hin). apply in_map_iff in Hin as (j' & Heq & Hj').
    injection Heq as -> ->. apply in_seq in Hk, Hj'. lia.
  - intros H. exists i. split; [apply in_seq; lia|].
    apply in_map, in_seq. lia.
Qed.

Lemma NoDup_flat_map_disjoint {A B : Type} (f : A -> list B) (l : list A) :
  NoDup l ->
  (forall a, In a l -> NoDup (f a)) ->
  (forall a a' b, In a l -> In a' l -> In b (f a) -> In b (f a') -> a = a') ->
  NoDup (flat_map f l).
Proof.
  induction 1 as [|a l Ha Hl IH]; intros Hf Hd; cbn [flat_map]; [constructor|].
  apply NoDup_app.
  - apply Hf; now left.
  - apply IH.
    + intros; apply Hf; now right.
    + intros a1 a2 b H1 H2; apply Hd; now right.
  - intros b Hb Hb'. apply in_flat_map in Hb' as (a' & Ha' & Hb').
    assert (a = a') as <- by (apply (Hd a a' b); [now left | now right | assumption..]).
    contradiction.
Qed.

Lemma NoDup_map_pair (i : nat) (js : list nat) : NoDup js -> NoDup (map (pair i) js).
Proof.
  induction 1 as [|j js Hj _ IH]; cbn [map]; constructor; [|assumption].
  intros Hin. apply in_map_iff in Hin as (j' & Heq & Hj'). congruence.
Qed.

Lemma NoDup_unordered_pairs (n : nat) : NoDup (unordered_pairs n).
Proof.
  unfold unordered_pairs. apply NoDup_flat_map_disjoint.
  - apply seq_NoDup.
  - intros i _. apply NoDup_map_pair, seq_NoDup.
  - intros i i' [a b] _ _ H1 H2.
    apply in_map_iff in H1 as (? & H1 & _), H2 as (? & H2 & _).
    congruence.
Qed.

Lemma filter_flat_map {A B : Type} (p : B -> bool) (f : A -> list B) (l : list A) :
  filter p (flat_map f l) = flat_map (fun a => filter p (f a)) l.
Proof.
  induction l as [|a l IH]; cbn [flat_map]; [reflexivity|].
  now rewrite filter_app, IH.
Qed.

Lemma filter_const {A : Type} (b : bool) (l : list A) :
  filter (fun _ => b) l = if b then l else [].
Proof.
  destruct b; induction l as [|a l IH]; cbn [filter]; congruence.
Qed.

Lemma counted_pairs_rows (kw : kwargs) (r_vectors : list vec3) :
  counted_pairs kw r_vectors
  = flat_map (fun i => if above_wall kw (row r_vectors i)
                       then map (pair i) (seq (S i) (length r_vectors - S i))
                       else [])
             (seq 0 (length r_vectors)).
Proof.
  unfold counted_pairs, unordered_pairs. rewrite filter_flat_map.
  apply flat_map_ext. intros i.
  rewrite <- (filter_const (above_wall kw (row r_vectors i))).
  induction (seq (S i) (length r_vectors - S i)) as [|j js IH]; cbn [map filter fst];
    [reflexivity|].
  now rewrite IH.
Qed.

Lemma dsum_flat_map {A B : Type} (g : B -> double) (h : A -> list B) (l : list A) :
  dsum (map g (flat_map h l)) = dsum (map (fun a => dsum (map g (h a))) l).
Proof.
  induction l as [|a l IH]; cbn [flat_map map dsum]; [reflexivity|].
  now rewrite map_app, dsum_app, IH.
Qed.

(** The total energy: every blob's own term, and the pair terms of the pairs
    whose lower-indexed blob is above the wall. *)
Lemma total_energy_decomposition (kw : kwargs) (r_vectors : list vec3) :
  compute_total_energy r_vectors kw
  = Some (dsum (map (single_term kw) r_vectors)
          + dsum (map (pair_energy kw r_vectors) (counted_pairs kw r_vectors))).
Proof.
  rewrite compute_total_energy_slots. f_equal.
  rewrite counted_pairs_rows, dsum_flat_map.
  replace (map (single_term kw) r_vectors)
    with (map (fun i => single_term kw (row r_vectors i)) (seq 0 (length r_vectors)))
    by now rewrite <- map_map, map_row_seq.
  rewrite <- dsum_map_add.
  unfold slot_energies. apply dsum_map_ext_in. intros i _.
  rewrite thread_energy_row. unfold single_term.
  destruct (above_wall kw (row r_vectors i)).
  - now rewrite map_map.
  - cbn [map dsum]. now rewrite dadd_0_r.
Qed.

(** ** The wall branch of the kernel *)

Ltac rdecide :=
  repeat first [ rewrite Rltb_true by lra | rewrite Rltb_false by lra
               | rewrite Reqb0_true by lra | rewrite Reqb0_false by lra ].

Lemma dle_not_gt (a b : double) : (a <=? b) = true -> (a >? b) = false.
Proof.
  unfold dgt. destruct a, b; cbn; try reflexivity; try discriminate.
  intros H. apply negb_true_iff in H. exact H.
Qed.

Lemma dsub_zero_not_gt (a b : double) : a - b = Fin 0 -> (a >? b) = false.
Proof.
  unfold dgt. destruct a, b; cbn; try reflexivity; try discriminate.
  intros H. injection H as H. apply Rltb_false. lra.
Qed.

Lemma dgt_dsub_pos (a b : double) : (a >? b) = true -> (Fin 0 <? a - b) = true.
Proof.
  unfold dgt. destruct a, b; cbn; try reflexivity; try discriminate.
  intros H. destruct (Rltb_spec r0 r); [|discriminate]. apply Rltb_true. lra.
Qed.

Lemma thread_energy_penalty (x : list double) (n_blobs : nat)
    (Lx Ly debye_length_wall eps_wall debye_length eps weight blob_radius : double) (i : nat) :
  (x.[i * 3 + 2] >? blob_radius) = false ->
  thread_energy x n_blobs Lx Ly debye_length_wall eps_wall debye_length eps weight blob_radius i
  = Fin 100000 * (- (x.[i * 3 + 2] - blob_radius) + Fin 1).
Proof. intros H. unfold thread_energy. now rewrite H. Qed.

(** C2: a blob with [z <= blob_radius] gets the penalty
    [1e5 * (-(z - blob_radius) + 1)], which is [1e5] when [z] is exactly
    [blob_radius]; and a blob whose wall divisor [z - blob_radius] is zero
    always takes that branch, so the wall term never divides by zero. *)
Theorem wall_penalty_branch (x : list double) (n_blobs : nat)
    (Lx Ly debye_length_wall eps_wall debye_length eps weight blob_radius : double) (i : nat) :
  (i < n_blobs)%nat ->
  (x.[i * 3 + 2] <=? blob_radius) = true ->
  let kernel :=
    potential_from_position_blobs x n_blobs Lx Ly debye_length_wall eps_wall
                                  debye_length eps weight blob_radius in
  kernel i = Some (Fin 100000 * (- (x.[i * 3 + 2] - blob_radius) + Fin 1))
  /\ (forall r : R, x.[i * 3 + 2] = Fin r -> blob_radius = Fin r ->
      kernel i = Some (Fin 100000))
  /\ (forall k : nat, (k < n_blobs)%nat -> x.[k * 3 + 2] - blob_radius = Fin 0 ->
      kernel k = Some (Fin 100000 * (- (x.[k * 3 + 2] - blob_radius) + Fin 1)))
  /\ (forall k : nat, (x.[k * 3 + 2] >? blob_radius) = true ->
      (Fin 0 <? x.[k * 3 + 2] - blob_radius) = true).
Proof.
  intros Hi Hle kernel.
  assert (Hpen : forall k, (k < n_blobs)%nat -> (x.[k * 3 + 2] >? blob_radius) = false ->
            kernel k = Some (Fin 100000 * (- (x.[k * 3 + 2] - blob_radius) + Fin 1))).
  { intros k Hk Hgt. unfold kernel, potential_from_position_blobs.
    destruct (Nat.leb_spec n_blobs k); [lia|].
    now rewrite thread_energy_penalty. }
  split; [|split; [|split]].
  - apply Hpen; [assumption | now apply dle_not_gt].
  - intros r Hz Hr. rewrite Hpen; [|assumption | now apply dle_not_gt].
    rewrite Hz, Hr. cbn. do 2 f_equal. lra.
  - intros k Hk Hz. apply Hpen; [assumption | now apply dsub_zero_not_gt].
  - intros k. apply dgt_dsub_pos.
Qed.

(** The scenario [blob_radius = 1], [z = 1]: the slot holds [1e5]. *)
Lemma wall_penalty_branch_witness :
  potential_from_position_blobs [Fin 0; Fin 0; Fin 1] 1 (Fin 0) (Fin 0) (Fin 1) (Fin 1)
                                (Fin 1) (Fin 1) (Fin 1) (Fin 1) 0
  = Some (Fin 100000).
Proof.
  refine (proj1 (proj2 (wall_penalty_branch [Fin 0; Fin 0; Fin 1] 1 (Fin 0) (Fin 0) (Fin 1)
                          (Fin 1) (Fin 1) (Fin 1) (Fin 1) (Fin 1) 0 _ _)) 1%R eq_refl eq_refl).
  - lia.
  - cbn. rewrite Rltb_false by lra. reflexivity.
Defined.

(** ** Blobs behind the wall *)

Lemma nth_slot_energies (kw : kwargs) (r_vectors : list vec3) (i : nat) :
  (i < length r_vectors)%nat ->
  nth i (slot_energies r_vectors kw) NaN
  = if above_wall kw (row r_vectors i) then
      one_blob_term kw (row r_vectors i)
      + dsum (map (fun j => pair_energy kw r_vectors (i, j))
                  (seq (S i) (length r_vectors - S i)))
    else wall_penalty kw (row r_vectors i).
Proof.
  intros Hi. unfold slot_energies.
  rewrite nth_indep with (d' := thread_energy (reshape r_vectors) (length r_vectors)
         (fst (periodic_length kw)) (snd (periodic_length kw))
         (kw_debye_length_wall kw) (repulsion_strength_wall kw)
         (kw_debye_length kw) (repulsion_strength kw)
         (kw_weight kw) (kw_blob_radius kw) 0)
    by now rewrite length_map, length_seq.
  rewrite map_nth, seq_nth by assumption. apply thread_energy_row.
Qed.

(** C10: the slot of a blob with [z <= blob_radius] holds the wall penalty
    alone, no pair [(i, j)] of that blob with a higher-indexed blob is among
    the pairs that enter the total, and the total is the sum of the blobs' own
    terms and of the terms of the counted pairs. *)
Theorem behind_wall_pairs_omitted (kw : kwargs) (r_vectors : list vec3) (i : nat) :
  (i < length r_vectors)%nat ->
  (vz (row r_vectors i) <=? kw_blob_radius kw) = true ->
  nth i (slot_energies r_vectors kw) NaN = wall_penalty kw (row r_vectors i)
  /\ (forall j : nat, ~ In (i, j) (counted_pairs kw r_vectors))
  /\ compute_total_energy r_vectors kw
     = Some (dsum (map (single_term kw) r_vectors)
             + dsum (map (pair_energy kw r_vectors) (counted_pairs kw r_vectors))).
Proof.
  intros Hi Hle. apply dle_not_gt in Hle.
  split; [|split].
  - rewrite nth_slot_energies by assumption. unfold above_wall. now rewrite Hle.
  - intros j Hin. unfold counted_pairs in Hin. apply filter_In in Hin as [_ Hab].
    cbn [fst] in Hab. unfold above_wall in Hab. congruence.
  - apply total_energy_decomposition.
Qed.

(** ** The minimum-image update *)

Lemma clamp_int_id (n : Z) : (INT_MIN <= n <= INT_MAX)%Z -> clamp_int n = n.
Proof. unfold clamp_int; lia. Qed.

Lemma Ztrunc_nonneg (q : R) : (0 <= q)%R -> Ztrunc q = Zfloor q.
Proof. intros H. unfold Ztrunc. now rewrite Rltb_false by lra. Qed.

Lemma Ztrunc_neg (q : R) : (q < 0)%R -> Ztrunc q = Zceil q.
Proof. intros H. unfold Ztrunc. now rewrite Rltb_true by lra. Qed.

Lemma Ztrunc_bound (q : R) : (Rabs (IZR (Ztrunc q)) <= Rabs q)%R.
Proof.
  destruct (Rlt_le_dec q 0) as [Hq|Hq].
  - rewrite Ztrunc_neg by assumption.
    pose proof (Zceil_bound q) as [_ H1].
    assert (Zceil q <= 0)%Z as H2.
    { apply Z.opp_nonneg_nonpos. unfold Zceil. rewrite Z.opp_involutive.
      apply Zfloor_lub. simpl. lra. }
    apply IZR_le in H2. rewrite !Rabs_left1 by lra. lra.
  - rewrite Ztrunc_nonneg by assumption.
    pose proof (Zfloor_bound q) as [H1 _].
    assert (0 <= Zfloor q)%Z as H2 by (apply Zfloor_lub; simpl; lra).
    apply IZR_le in H2. rewrite !Rabs_right by lra. lra.
Qed.

Lemma Ztrunc_in_range (q : R) :
  (Rabs q < 2147483648)%R -> (INT_MIN <= Ztrunc q <= INT_MAX)%Z.
Proof.
  intros H. pose proof (Ztrunc_bound q) as Hb.
  assert (Rabs (IZR (Ztrunc q)) < IZR 2147483648)%R as Hlt by lra.
  unfold INT_MIN, INT_MAX.
  destruct (Z_lt_le_dec (Ztrunc q) 0) as [Hn|Hn].
  - rewrite Rabs_left in Hlt by (apply IZR_lt in Hn; lra).
    rewrite <- opp_IZR in Hlt. apply lt_IZR in Hlt. lia.
  - rewrite Rabs_right in Hlt by (apply IZR_le in Hn; lra).
    apply lt_IZR in Hlt. lia.
Qed.

Lemma min_image_finite (d l : R) :
  (l <> 0)%R ->
  min_image (Fin d) (Fin l)
  = Fin (d + - (IZR (clamp_int (Ztrunc (image_quotient d l))) * l)).
Proof.
  intros Hl. unfold min_image, image_quotient. cbn.
  rewrite Reqb0_false by assumption. reflexivity.
Qed.

Lemma image_quotient_abs (d l : R) :
  (0 < l)%R -> (Rabs (image_quotient d l) <= Rabs (d / l) + 1 / 2)%R.
Proof.
  intros Hl. unfold image_quotient.
  destruct (Rtotal_order d 0) as [Hd|[Hd|Hd]].
  - rewrite (Rltb_false 0 d), (Rltb_true d 0) by lra. cbn.
    assert (d / l < 0)%R by (apply Rdiv_neg_pos; lra).
    rewrite !Rabs_left by lra. lra.
  - subst d. rewrite !Rltb_false by lra. cbn.
    unfold Rdiv at 1 3. rewrite !Rmult_0_l, Rmult_0_r, Rplus_0_r, Rabs_R0. lra.
  - rewrite (Rltb_true 0 d), (Rltb_false d 0) by lra. cbn.
    assert (0 < d / l)%R by (apply Rdiv_pos_pos; lra).
    rewrite !Rabs_right by lra. lra.
Qed.

Lemma image_quotient_near (d l : R) :
  (0 < l)%R ->
  (Rabs (d / l - IZR (Ztrunc (image_quotient d l))) <= 1 / 2)%R.
Proof.
  intros Hl. unfold image_quotient.
  destruct (Rtotal_order d 0) as [Hd|[Hd|Hd]].
  - rewrite (Rltb_false 0 d), (Rltb_true d 0) by lra. cbn.
    assert (d / l < 0)%R by (apply Rdiv_neg_pos; lra).
    rewrite Ztrunc_neg by lra.
    pose proof (Zceil_bound (d / l + 1 / 2 * -1)).
    apply Rabs_le. lra.
  - subst d. rewrite !Rltb_false by lra. cbn.
    replace (0 / l + 1 / 2 * 0)%R with (IZR 0) by (unfold Rdiv; simpl; lra).
    rewrite Ztrunc_nonneg by (simpl; lra). rewrite ZfloorZ.
    apply Rabs_le. unfold Rdiv; simpl; lra.
  - rewrite (Rltb_true 0 d), (Rltb_false d 0) by lra. cbn.
    assert (0 < d / l)%R by (apply Rdiv_pos_pos; lra).
    rewrite Ztrunc_nonneg by lra.
    pose proof (Zfloor_bound (d / l + 1 / 2 * 1)).
    apply Rabs_le. lra.
Qed.

Lemma wrap_finite_in_range (d l : R) :
  (0 < l)%R -> (Rabs (d / l) + 1 / 2 < 2147483648)%R ->
  wrap (Fin l) (Fin d) = Fin (d - IZR (Ztrunc (image_quotient d l)) * l).
Proof.
  intros Hl Hr. unfold wrap, dgt. cbn [dlt]. rewrite Rltb_true by assumption.
  rewrite min_image_finite by lra.
  rewrite clamp_int_id; [reflexivity|].
  apply Ztrunc_in_range. pose proof (image_quotient_abs d l Hl). lra.
Qed.

Lemma wrap_disabled (L d : double) : (L >? Fin 0) = false -> wrap L d = d.
Proof. intros H. unfold wrap. now rewrite H. Qed.

(** C5, as the code has it, in exact arithmetic (the rounding of the
    division, the product and the difference set aside): for a positive
    periodic length [l] and a displacement [d] whose quotient [|d / l| + 1/2]
    is below [2^31] (so that the conversion to [int] does not saturate), the
    wrapped displacement is [d] minus an integer multiple of [l] and at most
    [l / 2] in absolute value; for a periodic length that is zero or negative
    the displacement is unchanged; the pair loop wraps the x and y components
    only and passes the z component as it is. *)
Theorem min_image_wrap :
  (forall d l : R,
      (0 < l)%R -> (Rabs (d / l) + 1 / 2 < 2147483648)%R ->
      exists n : Z,
        wrap (Fin l) (Fin d) = Fin (d - IZR n * l)
        /\ (Rabs (d - IZR n * l) <= l / 2)%R)
  /\ (forall L d : double, (L <=? Fin 0) = true -> wrap L d = d)
  /\ (forall (x : list double) (Lx Ly debye_length eps blob_radius u : double) (i j : nat),
         pair_iteration x Lx Ly debye_length eps blob_radius i u j
         = blob_blob_potential u
             (wrap Lx (x.[i * 3] - x.[j * 3]))
             (wrap Ly (x.[i * 3 + 1] - x.[j * 3 + 1]))
             (x.[i * 3 + 2] - x.[j * 3 + 2])
             i j debye_length eps blob_radius).
Proof.
  split; [|split].
  - intros d l Hl Hr. exists (Ztrunc (image_quotient d l)). split.
    + now apply wrap_finite_in_range.
    + pose proof (image_quotient_near d l Hl) as Hn.
      replace (d - IZR (Ztrunc (image_quotient d l)) * l)%R
        with (l * (d / l - IZR (Ztrunc (image_quotient d l))))%R by (field; lra).
      rewrite Rabs_mult, (Rabs_right l) by lra.
      apply Rmult_le_compat_l with (r := l) in Hn; lra.
  - intros L d H. apply wrap_disabled. now apply dle_not_gt.
  - reflexivity.
Qed.

(** A displacement of [3/4] of the period is wrapped to [-1/4] of it. *)
Lemma min_image_wrap_witness :
  exists n : Z,
    wrap (Fin 4) (Fin 3) = Fin (3 - IZR n * 4) /\ (Rabs (3 - IZR n * 4) <= 4 / 2)%R.
Proof.
  apply (proj1 min_image_wrap 3%R 4%R).
  - lra.
  - rewrite Rabs_right by lra. lra.
Defined.

(** C5 as stated fails: a displacement of [2^33] periods exceeds the range of
    [int], the conversion saturates at [2^31 - 1] and the wrapped displacement
    is far longer than half a period. *)
Lemma min_image_int_saturates :
  wrap (Fin 1) (Fin 8589934592) = Fin 6442450945
  /\ ~ (Rabs 6442450945 <= 1 / 2)%R.
Proof.
  assert (Hq : Ztrunc (image_quotient 8589934592 1) = 8589934592%Z).
  { unfold image_quotient. rewrite (Rltb_true 0), (Rltb_false _ 0) by lra. cbn.
    rewrite Ztrunc_nonneg by lra. apply Zfloor_eq. lra. }
  split.
  - unfold wrap, dgt. cbn [dlt]. rewrite Rltb_true by lra.
    rewrite min_image_finite by lra. rewrite Hq.
    unfold clamp_int, INT_MIN, INT_MAX. cbn. f_equal. lra.
  - rewrite Rabs_right by lra. lra.
Qed.

(** ** The total energy and the specification's sum *)

Lemma row_In (r_vectors : list vec3) (i : nat) :
  (i < length r_vectors)%nat -> In (row r_vectors i) r_vectors.
Proof. intros H. unfold row. now apply nth_In. Qed.

Lemma counted_pairs_all_above (kw : kwargs) (r_vectors : list vec3) :
  (forall v, In v r_vectors -> above_wall kw v = true) ->
  counted_pairs kw r_vectors = unordered_pairs (length r_vectors).
Proof.
  intros Hab. unfold counted_pairs.
  apply forallb_filter_id, forallb_forall. intros [i j] Hin.
  apply in_unordered_pairs in Hin. cbn [fst]. apply Hab, row_In. lia.
Qed.

Lemma single_terms_all_above (kw : kwargs) (r_vectors : list vec3) :
  (forall v, In v r_vectors -> above_wall kw v = true) ->
  map (single_term kw) r_vectors = map (one_blob_term kw) r_vectors.
Proof.
  intros Hab. apply map_ext_in. intros v Hv. unfold single_term. now rewrite Hab.
Qed.

(** C3, as the code has it: when every blob is above the wall, the energy
    returned is the sum of the one-blob terms plus the sum of the blob-blob
    terms over the pairs [(i, j)], [i < j], and this list holds every unordered
    pair of distinct blobs exactly once. *)
Theorem total_energy_pairs_once (kw : kwargs) (r_vectors : list vec3) :
  (forall v, In v r_vectors -> above_wall kw v = true) ->
  compute_total_energy r_vectors kw = Some (total_energy_spec kw r_vectors)
  /\ NoDup (unordered_pairs (length r_vectors))
  /\ (forall i j : nat,
         In (i, j) (unordered_pairs (length r_vectors)) <-> (i < j < length r_vectors)%nat).
Proof.
  intros Hab. split; [|split].
  - rewrite total_energy_decomposition. unfold total_energy_spec.
    now rewrite counted_pairs_all_above, single_terms_all_above.
  - apply NoDup_unordered_pairs.
  - intros i j. apply in_unordered_pairs.
Qed.

(** ** Exchanging two blobs *)

Lemma length_update {A : Type} (l : list A) (i : nat) (a : A) :
  length (update l i a) = length l.
Proof.
  revert i; induction l as [|b l IH]; intros [|i]; cbn [update length]; auto.
Qed.

Lemma nth_error_update {A : Type} (l : list A) (i k : nat) (a : A) :
  (i < length l)%nat ->
  nth_error (update l i a) k = if (k =? i)%nat then Some a else nth_error l k.
Proof.
  revert i k; induction l as [|b l IH]; intros i k Hi; cbn [length] in Hi; [lia|].
  destruct i as [|i], k as [|k]; cbn [update nth_error Nat.eqb]; try reflexivity.
  apply IH. lia.
Qed.

Lemma nth_error_row (r_vectors : list vec3) (i : nat) :
  (i < length r_vectors)%nat -> nth_error r_vectors i = Some (row r_vectors i).
Proof. intros H. unfold row. now apply nth_error_nth'. Qed.

Lemma nth_error_swap_rows (r_vectors : list vec3) (i j k : nat) :
  (i < length r_vectors)%nat -> (j < length r_vectors)%nat ->
  nth_error (swap_rows r_vectors i j) k = nth_error r_vectors (transpose i j k).
Proof.
  intros Hi Hj. unfold swap_rows, transpose.
  rewrite nth_error_update by now rewrite length_update.
  rewrite nth_error_update by assumption.
  destruct (Nat.eqb_spec k i) as [Hki|Hki], (Nat.eqb_spec k j) as [Hkj|Hkj];
    subst; try reflexivity; symmetry; now apply nth_error_row.
Qed.

Lemma transpose_involutive (i j k : nat) : transpose i j (transpose i j k) = k.
Proof.
  unfold transpose.
  destruct (Nat.eqb_spec k i) as [Hki|Hki]; [|destruct (Nat.eqb_spec k j) as [Hkj|Hkj]].
  - destruct (Nat.eqb_spec j i); [lia|]. rewrite Nat.eqb_refl. lia.
  - rewrite Nat.eqb_refl. lia.
  - destruct (Nat.eqb_spec k i); [lia|]. destruct (Nat.eqb_spec k j); lia.
Qed.

Lemma swap_rows_Permutation (r_vectors : list vec3) (i j : nat) :
  (i < length r_vectors)%nat -> (j < length r_vectors)%nat ->
  Permutation r_vectors (swap_rows r_vectors i j).
Proof.
  intros Hi Hj. apply Permutation_nth_error. split.
  - unfold swap_rows. now rewrite !length_update.
  - exists (transpose i j). split.
    + intros a b H. rewrite <- (transpose_involutive i j a), H.
      apply transpose_involutive.
    + intros k. now apply nth_error_swap_rows.
Qed.

(** ** Symmetry of the blob-blob term *)

Lemma Ztrunc_opp (q : R) : Ztrunc (- q) = (- Ztrunc q)%Z.
Proof.
  destruct (Rtotal_order q 0) as [Hq|[Hq|Hq]].
  - rewrite (Ztrunc_neg q), (Ztrunc_nonneg (- q)) by lra. apply ZfloorN.
  - subst q. rewrite Ropp_0, Ztrunc_nonneg by lra. now rewrite (ZfloorZ 0).
  - rewrite (Ztrunc_nonneg q), (Ztrunc_neg (- q)) by lra. apply ZceilN.
Qed.

Lemma image_quotient_opp (d l : R) : image_quotient (- d) l = (- image_quotient d l)%R.
Proof.
  unfold image_quotient.
  destruct (Rtotal_order d 0) as [Hd|[Hd|Hd]].
  - rewrite (Rltb_true 0 (- d)), (Rltb_false (- d) 0), (Rltb_false 0 d), (Rltb_true d 0) by lra.
    cbn. unfold Rdiv. lra.
  - subst d. rewrite Ropp_0, !Rltb_false by lra. cbn. unfold Rdiv. lra.
  - rewrite (Rltb_false 0 (- d)), (Rltb_true (- d) 0), (Rltb_true 0 d), (Rltb_false d 0) by lra.
    cbn. unfold Rdiv. lra.
Qed.

Lemma Ztrunc_half_sign (r : R) :
  clamp_int (Ztrunc (0 + 1 / 2 * IZR (int_of_bool (Rltb 0 r) - int_of_bool (Rltb r 0)))) = 0%Z.
Proof.
  destruct (Rtotal_order r 0) as [Hr|[Hr|Hr]].
  - rewrite (Rltb_false 0 r), (Rltb_true r 0) by lra. cbn.
    rewrite Ztrunc_neg by lra. now rewrite (Zceil_eq 0) by (simpl; lra).
  - subst r. rewrite !Rltb_false by lra. cbn.
    rewrite Ztrunc_nonneg by lra. now rewrite (Zfloor_eq 0) by (simpl; lra).
  - rewrite (Rltb_true 0 r), (Rltb_false r 0) by lra. cbn.
    rewrite Ztrunc_nonneg by lra. now rewrite (Zfloor_eq 0) by (simpl; lra).
Qed.

Lemma wrap_odd (L d : double) : wrap_exact L d -> wrap L (- d) = - wrap L d.
Proof.
  intros Hex. unfold wrap. destruct (L >? Fin 0) eqn:HL; [|reflexivity].
  destruct L as [l| | |]; try discriminate.
  - unfold dgt in HL; cbn in HL. destruct (Rltb_spec 0 l) as [Hl|]; [|discriminate].
    destruct d as [r| | |].
    + cbn [dneg]. rewrite !min_image_finite by lra.
      cbn in Hex. specialize (Hex Hl).
      rewrite image_quotient_opp, Ztrunc_opp.
      pose proof (image_quotient_abs r l Hl) as Hq.
      pose proof (Ztrunc_in_range (image_quotient r l) ltac:(lra)) as Hr.
      assert (INT_MIN <= - Ztrunc (image_quotient r l) <= INT_MAX)%Z as Hr'.
      { rewrite <- Ztrunc_opp. apply Ztrunc_in_range. rewrite Rabs_Ropp. lra. }
      rewrite !clamp_int_id by assumption. rewrite opp_IZR. cbn. f_equal. lra.
    + unfold min_image. cbn. rdecide. cbn. rdecide. reflexivity.
    + unfold min_image. cbn. rdecide. cbn. rdecide. reflexivity.
    + reflexivity.
  - destruct d as [r| | |]; unfold min_image; cbn; rewrite ?Ztrunc_half_sign;
      unfold inf_of_sign; rdecide; reflexivity.
Qed.

Lemma blob_blob_term_sym (kw : kwargs) (v w : vec3) :
  pair_wrap_exact kw v w -> blob_blob_term kw w v = blob_blob_term kw v w.
Proof.
  intros [Hx Hy]. unfold blob_blob_term.
  rewrite <- (dneg_sub (vx v) (vx w)), <- (dneg_sub (vy v) (vy w)), <- (dneg_sub (vz v) (vz w)).
  rewrite !wrap_odd by assumption. now rewrite !dmul_neg_neg.
Qed.

(** ** The pair sum is a symmetric function of the rows *)

Lemma dadd_swap_middle (a b c d : double) : a + b + (c + d) = a + c + (b + d).
Proof.
  rewrite <- !dadd_assoc. f_equal. rewrite !dadd_assoc. f_equal. apply dadd_comm.
Qed.

Lemma pair_sum_Permutation (kw : kwargs) (l l' : list vec3) :
  Permutation l l' ->
  (forall v w, In v l -> In w l -> blob_blob_term kw w v = blob_blob_term kw v w) ->
  pair_sum kw l = pair_sum kw l'.
Proof.
  induction 1 as [|x l l' Hp IH|x y l|l1 l2 l3 Hp1 IH1 Hp2 IH2]; intros Hsym;
    cbn [pair_sum map dsum].
  - reflexivity.
  - rewrite IH by (intros; apply Hsym; now right).
    f_equal. apply dsum_Permutation. now apply Permutation_map.
  - rewrite (Hsym y x) by (cbn; auto).
    apply dadd_swap_middle.
  - rewrite IH1 by assumption. apply IH2.
    intros v w Hv Hw. apply Hsym; eapply Permutation_in; try eassumption;
      now apply Permutation_sym.
Qed.

Lemma pair_energy_cons (kw : kwargs) (v : vec3) (l : list vec3) (i j : nat) :
  pair_energy kw (v :: l) (S i, S j) = pair_energy kw l (i, j).
Proof. reflexivity. Qed.

Lemma pair_sum_unordered_pairs (kw : kwargs) (r_vectors : list vec3) :
  dsum (map (pair_energy kw r_vectors) (unordered_pairs (length r_vectors)))
  = pair_sum kw r_vectors.
Proof.
  unfold unordered_pairs. rewrite dsum_flat_map.
  induction r_vectors as [|v l IH]; [reflexivity|].
  cbn [length seq map dsum pair_sum]. rewrite <- IH. f_equal.
  - replace (S (length l) - 1)%nat with (length l) by lia.
    rewrite map_map, <- seq_shift, map_map.
    replace (map (blob_blob_term kw v) l)
      with (map (fun j => blob_blob_term kw v (row l j)) (seq 0 (length l)))
      by now rewrite <- map_map, map_row_seq.
    reflexivity.
  - rewrite <- seq_shift, map_map. apply dsum_map_ext_in. intros i _.
    cbn [Nat.sub]. rewrite <- seq_shift, !map_map. reflexivity.
Qed.

Lemma total_energy_all_above (kw : kwargs) (r_vectors : list vec3) :
  (forall v, In v r_vectors -> above_wall kw v = true) ->
  compute_total_energy r_vectors kw
  = Some (dsum (map (one_blob_term kw) r_vectors) + pair_sum kw r_vectors).
Proof.
  intros Hab. rewrite total_energy_decomposition.
  now rewrite counted_pairs_all_above, single_terms_all_above, pair_sum_unordered_pairs.
Qed.

(** C4, as the code has it, in exact arithmetic: when every blob is above the
    wall and the minimum-image conversions do not saturate, exchanging the
    rows of two blobs leaves the energy returned by the evaluator unchanged. *)
Theorem swap_energy_invariant (kw : kwargs) (r_vectors : list vec3) (i j : nat) :
  (i < length r_vectors)%nat -> (j < length r_vectors)%nat ->
  (forall v, In v r_vectors -> above_wall kw v = true) ->
  (forall v w, In v r_vectors -> In w r_vectors -> pair_wrap_exact kw v w) ->
  compute_total_energy (swap_rows r_vectors i j) kw = compute_total_energy r_vectors kw.
Proof.
  intros Hi Hj Hab Hex.
  pose proof (swap_rows_Permutation r_vectors i j Hi Hj) as Hp.
  rewrite !total_energy_all_above; try assumption.
  - f_equal. f_equal.
    + symmetry. apply dsum_Permutation. now apply Permutation_map.
    + symmetry. apply pair_sum_Permutation; [assumption|].
      intros v w Hv Hw. apply blob_blob_term_sym. now apply Hex.
  - intros v Hv. apply Hab. eapply Permutation_in; [apply Permutation_sym|]; eassumption.
Qed.

(** ** Worked examples *)

Ltac deval :=
  repeat (progress (cbn -[exp sqrt Rplus Rmult Rdiv Rminus Ropp Rinv Rltb Reqb0 IZR]; rdecide)).

Ltac sqrt_of v :=
  match goal with
  | |- context [sqrt ?e] =>
      replace (sqrt e) with v
        by (symmetry; replace e with (v * v)%R by lra; apply sqrt_square; lra)
  end.

Ltac fin_eq :=
  match goal with
  | |- Some (Fin ?a) = Some (Fin ?b) =>
      replace a with b by first [lra | field | (field_simplify; lra)]; reflexivity
  | |- Fin ?a = Fin ?b =>
      replace a with b by first [lra | field | (field_simplify; lra)]; reflexivity
  end.

Ltac unfold_kernel :=
  unfold slot_energies, thread_energy, one_blob_potential, pair_iteration,
    blob_blob_potential, min_image, aget.

(** Blob behind the wall first: its slot is the penalty [2e5], and the slot of
    the second blob has no pair left to add. *)
Lemma energy_behind_above :
  compute_total_energy [blob_behind; blob_above] kw_unit
  = Some (Fin (200000 + (3 + exp (-2) / 2))).
Proof.
  rewrite compute_total_energy_slots. unfold_kernel.
  unfold kw_unit, blob_behind, blob_above. deval.
  replace (- (3 + - (1)) / 1)%R with (-2)%R by lra.
  fin_eq.
Qed.

(** The same two blobs in the other order: the pair term enters. *)
Lemma energy_above_behind :
  compute_total_energy [blob_above; blob_behind] kw_unit
  = Some (Fin (3 + exp (-2) / 2 + exp (-3) / 3 + 200000)).
Proof.
  rewrite compute_total_energy_slots. unfold_kernel.
  unfold kw_unit, blob_behind, blob_above. deval. sqrt_of 3%R. deval.
  replace (- (3 + - (1)) / 1)%R with (-2)%R by lra.
  replace (-(3) / 1)%R with (-3)%R by lra.
  fin_eq.
Qed.

Lemma spec_behind_above :
  total_energy_spec kw_unit [blob_behind; blob_above]
  = Fin (- exp 1 + (3 + exp (-2) / 2) + exp (-3) / 3).
Proof.
  unfold total_energy_spec, one_blob_term, pair_energy, blob_blob_term, wrap, row.
  unfold kw_unit, blob_behind, blob_above. deval. sqrt_of 3%R. deval.
  replace (- (3 + - (1)) / 1)%R with (-2)%R by lra.
  replace (- (0 + - (1)) / 1)%R with 1%R by lra.
  replace (-(3) / 1)%R with (-3)%R by lra.
  fin_eq.
Qed.

Lemma exp_neg_lt_1 (x : R) : (x < 0)%R -> (0 < exp x < 1)%R.
Proof.
  intros H. split; [apply exp_pos|].
  rewrite <- exp_0. now apply exp_increasing.
Qed.

(** C3 as stated fails: with the first of two blobs behind the wall, the
    evaluator returns the penalty of that blob and the one-blob term of the
    other, which is not the sum of the one-blob terms and of the pair term. *)
Lemma total_energy_spec_fails_behind_wall :
  compute_total_energy [blob_behind; blob_above] kw_unit
  <> Some (total_energy_spec kw_unit [blob_behind; blob_above]).
Proof.
  rewrite energy_behind_above, spec_behind_above. intros H. injection H as H.
  pose proof (exp_pos 1). pose proof (exp_neg_lt_1 (-3) ltac:(lra)). lra.
Qed.

Lemma total_energy_pairs_once_witness :
  compute_total_energy [blob_above; blob_aside] kw_unit
  = Some (total_energy_spec kw_unit [blob_above; blob_aside]).
Proof.
  apply (proj1 (total_energy_pairs_once kw_unit [blob_above; blob_aside]
                  ltac:(intros v [<-|[<-|[]]]; cbn; apply Rltb_true; lra))).
Defined.

(** Beyond the range of [int] the conversion saturates at [2^31 - 1] for a
    positive and at [-2^31] for a negative quotient, so the two orders of a
    pair give different distances.  With the period [2^-31] and the difference
    2 the quotient [2 / 2^-31 + 0.5] is [2^32 + 0.5], the conversion gives
    [2^31 - 1] and the wrapped difference is [2 - (2^31 - 1) * 2^-31], which
    is [1 + 2^-31]; with the difference -2 the quotient is [-2^32 - 0.5], the
    conversion gives [-2^31] and the wrapped difference is [-2 + 2^31 * 2^-31],
    which is -1.  Every number here is a binary fraction of few digits, so
    the double operations of the kernel are exact on them. *)
Lemma wrap_saturated_pos (d : R) :
  d = 2%R -> wrap (Fin (1 / 2147483648)) (Fin d) = Fin (1 + 1 / 2147483648).
Proof.
  intros ->.
  assert (Hq : Ztrunc (image_quotient 2 (1 / 2147483648)) = 4294967296%Z).
  { unfold image_quotient. rewrite (Rltb_true 0), (Rltb_false _ 0) by lra. cbn.
    rewrite Ztrunc_nonneg by lra. apply Zfloor_eq. lra. }
  unfold wrap, dgt. cbn [dlt]. rewrite Rltb_true by lra.
  rewrite min_image_finite by lra. rewrite Hq.
  unfold clamp_int, INT_MIN, INT_MAX. cbn. apply Fin_eq. lra.
Qed.

Lemma wrap_saturated_neg (d : R) :
  d = (-2)%R -> wrap (Fin (1 / 2147483648)) (Fin d) = Fin (-1).
Proof.
  intros ->.
  assert (Hq : Ztrunc (image_quotient (-2) (1 / 2147483648)) = (-4294967296)%Z).
  { unfold image_quotient. rewrite (Rltb_false 0), (Rltb_true _ 0) by lra. cbn.
    rewrite Ztrunc_neg by lra. apply Zceil_eq. lra. }
  unfold wrap, dgt. cbn [dlt]. rewrite Rltb_true by lra.
  rewrite min_image_finite by lra. rewrite Hq.
  unfold clamp_int, INT_MIN, INT_MAX. cbn. apply Fin_eq. lra.
Qed.

(** The pair term of the two blobs in the two orders: at the distance 1 in
    one, at the distance [1 + 2^-31] in the other. *)
Lemma far_pair_terms :
  blob_blob_term kw_short_period blob_near blob_right = Fin (exp (- 1))
  /\ blob_blob_term kw_short_period blob_right blob_near
     = Fin (exp (- (1 + 1 / 2147483648)) / (1 + 1 / 2147483648)).
Proof.
  unfold blob_blob_term, kw_short_period, blob_near, blob_right.
  cbn [periodic_length kw_debye_length repulsion_strength fst snd vx vy vz dsub dneg dadd].
  rewrite wrap_saturated_neg, wrap_saturated_pos by lra.
  rewrite !wrap_disabled by (cbn; apply Rltb_false; lra).
  split.
  - deval. sqrt_of 1%R. deval.
    apply Fin_eq. replace (- (1) / 1)%R with (- 1)%R by lra. lra.
  - deval. sqrt_of (1 + 1 / 2147483648)%R. deval.
    apply Fin_eq.
    replace (- (1 + 1 / 2147483648) / 1)%R with (- (1 + 1 / 2147483648))%R by lra. lra.
Qed.

Lemma far_pair_terms_differ :
  (exp (- (1 + 1 / 2147483648)) / (1 + 1 / 2147483648) < exp (- 1))%R.
Proof.
  assert (exp (- (1 + 1 / 2147483648)) < exp (- 1))%R as H1 by (apply exp_increasing; lra).
  pose proof (exp_pos (- (1 + 1 / 2147483648))) as H2.
  apply Rlt_trans with (exp (- (1 + 1 / 2147483648)) / 1)%R; [|lra].
  unfold Rdiv. apply Rmult_lt_compat_l; [assumption|].
  apply Rinv_lt_contravar; lra.
Qed.

Lemma short_period_above_wall (l : list vec3) :
  (forall v, In v l -> v = blob_near \/ v = blob_right) ->
  forall v, In v l -> above_wall kw_short_period v = true.
Proof.
  intros Hl v Hv. destruct (Hl v Hv) as [-> | ->]; cbn; apply Rltb_true; lra.
Qed.

(** The energy of the two blobs in the two orders: two one-blob terms
    [2 + exp (-1)] and the pair term. *)
Lemma energy_near_right :
  compute_total_energy [blob_near; blob_right] kw_short_period
  = Some (Fin (4 + 3 * exp (- 1))).
Proof.
  rewrite total_energy_all_above by (apply short_period_above_wall; cbn; intuition auto).
  destruct far_pair_terms as [H1 _].
  cbn [pair_sum map dsum]. rewrite H1.
  unfold one_blob_term, kw_short_period, blob_near, blob_right. deval.
  replace (- (2 + - (1)) / 1)%R with (- 1)%R by lra.
  fin_eq.
Qed.

Lemma energy_right_near :
  compute_total_energy [blob_right; blob_near] kw_short_period
  = Some (Fin (4 + 2 * exp (- 1)
               + exp (- (1 + 1 / 2147483648)) / (1 + 1 / 2147483648))).
Proof.
  rewrite total_energy_all_above by (apply short_period_above_wall; cbn; intuition auto).
  destruct far_pair_terms as [_ H2].
  cbn [pair_sum map dsum]. rewrite H2.
  unfold one_blob_term, kw_short_period, blob_near, blob_right. deval.
  replace (- (2 + - (1)) / 1)%R with (- 1)%R by lra.
  fin_eq.
Qed.

Lemma swap_far_blobs :
  compute_total_energy (swap_rows [blob_near; blob_right] 0 1) kw_short_period
  <> compute_total_energy [blob_near; blob_right] kw_short_period.
Proof.
  change (swap_rows [blob_near; blob_right] 0 1) with [blob_right; blob_near].
  rewrite energy_near_right, energy_right_near. intros H. injection H as H.
  pose proof far_pair_terms_differ. lra.
Qed.

Lemma swap_behind_wall :
  compute_total_energy (swap_rows [blob_behind; blob_above] 0 1) kw_unit
  <> compute_total_energy [blob_behind; blob_above] kw_unit.
Proof.
  change (swap_rows [blob_behind; blob_above] 0 1) with [blob_above; blob_behind].
  rewrite energy_behind_above, energy_above_behind. intros H. injection H as H.
  pose proof (exp_neg_lt_1 (-3) ltac:(lra)). lra.
Qed.

(** C4 as stated fails: exchanging a blob behind the wall with a blob above it
    changes the energy by the pair term; and exchanging two blobs above the
    wall that are [2^32] periods apart changes it too, since the conversion to
    [int] saturates differently for the two signs: the blobs at x = 0 and
    x = 2 with the period [2^-31] have the energy [4 + 3 * exp (-1)] in one
    order, with the pair at the distance 1, and
    [4 + 2 * exp (-1) + exp (-(1 + 2^-31)) / (1 + 2^-31)] in the other. *)
Lemma swap_changes_energy_behind_wall :
  compute_total_energy (swap_rows [blob_behind; blob_above] 0 1) kw_unit
  <> compute_total_energy [blob_behind; blob_above] kw_unit
  /\ compute_total_energy (swap_rows [blob_near; blob_right] 0 1) kw_short_period
     <> compute_total_energy [blob_near; blob_right] kw_short_period.
Proof. split; [exact swap_behind_wall | exact swap_far_blobs]. Qed.

Lemma swap_energy_invariant_witness :
  compute_total_energy (swap_rows [blob_above; blob_aside] 0 1) kw_unit
  = compute_total_energy [blob_above; blob_aside] kw_unit.
Proof.
  apply swap_energy_invariant.
  - cbn. lia.
  - cbn. lia.
  - intros v [<-|[<-|[]]]; cbn; apply Rltb_true; lra.
  - intros v w [<-|[<-|[]]] [<-|[<-|[]]]; split; cbn; lra.
Defined.

Lemma behind_wall_pairs_omitted_witness :
  nth 0 (slot_energies [blob_behind; blob_above] kw_unit) NaN
  = wall_penalty kw_unit (row [blob_behind; blob_above] 0).
Proof.
  apply (behind_wall_pairs_omitted kw_unit [blob_behind; blob_above] 0).
  - cbn. lia.
  - cbn. rewrite Rltb_false by lra. reflexivity.
Defined.

(** ** The Markov chain loop *)

Section ChainProperties.

Context {ops : PoseOps}.

(** The blob projection yields one row per blob of the reference
    configuration. *)
Hypothesis r_vectors_of_pose_length :
  forall reference loc ori,
    length (r_vectors_of_pose reference loc ori) = length reference.

Variable kw : kwargs.
Variable kT : double.
Variable max_angle_shift : double.
Variable rnd : draws.

Lemma slice_assign_app (pre old post rows : list vec3) :
  slice_assign (pre ++ old ++ post) (length pre) (length pre + length old) rows
  = pre ++ rows ++ post.
Proof.
  unfold slice_assign.
  rewrite firstn_app, Nat.sub_diag, firstn_all, firstn_O, app_nil_r.
  rewrite skipn_app, skipn_all2 by lia.
  replace (length pre + length old - length pre)%nat with (length old) by lia.
  rewrite skipn_app, skipn_all, Nat.sub_diag, skipn_O. reflexivity.
Qed.

(** What the loop over the bodies leaves in the bodies: the current pose is
    kept, the proposed pose is the disturbed current pose. *)
Lemma disturb_bodies_poses (bs : list Body) :
  forall (i : nat) (buf : list vec3) (k : nat),
    fst (disturb_bodies max_angle_shift rnd i bs buf k)
    = map (fun '(j, b) =>
             mk_Body (reference_configuration b) (location b) (orientation b)
                     (vadd (location b) (uniform3 rnd j))
                     (quaternion_mul
                        (from_rotation (vscale (normal3 rnd j) max_angle_shift))
                        (orientation b)))
          (combine (seq i (length bs)) bs).
Proof.
  induction bs as [|b bs IH]; intros i buf k; [reflexivity|].
  cbn [disturb_bodies disturb_body length seq combine map].
  destruct (disturb_bodies _ _ (S i) bs _ _) as [rest buf'] eqn:E.
  cbn [fst]. f_equal.
  specialize (IH (S i)). erewrite <- IH. rewrite E. reflexivity.
Qed.

Lemma disturb_bodies_frame (bs : list Body) (i : nat) (buf : list vec3) (k : nat) :
  let bs' := fst (disturb_bodies max_angle_shift rnd i bs buf k) in
  map location bs' = map location bs
  /\ map orientation bs' = map orientation bs
  /\ map reference_configuration bs' = map reference_configuration bs.
Proof.
  cbn zeta. rewrite disturb_bodies_poses. clear buf k. revert i.
  induction bs as [|b bs IH]; intros i; [repeat split|].
  cbn [length seq combine map]. destruct (IH (S i)) as (H1 & H2 & H3).
  rewrite H1, H2, H3. repeat split.
Qed.

Lemma Nblobs_get_r_vectors (b : Body) (loc : vec3) (ori : quaternion) :
  length (get_r_vectors b loc ori) = Nblobs b.
Proof. apply r_vectors_of_pose_length. Qed.

Lemma length_proposed_blobs (bs : list Body) :
  length (proposed_blobs bs) = total_blobs bs.
Proof.
  unfold proposed_blobs, total_blobs. induction bs as [|b bs IH]; [reflexivity|].
  cbn [flat_map map]. rewrite length_app, IH.
  unfold get_r_vectors_new. now rewrite Nblobs_get_r_vectors.
Qed.

(** What the loop over the bodies leaves in the buffer: the rows from
    [blob_index] on hold the blobs of the proposed poses. *)
Lemma disturb_bodies_buffer (bs : list Body) :
  forall (i : nat) (pre old post : list vec3),
    length old = total_blobs bs ->
    snd (disturb_bodies max_angle_shift rnd i bs (pre ++ old ++ post) (length pre))
    = pre ++ proposed_blobs (fst (disturb_bodies max_angle_shift rnd i bs
                                    (pre ++ old ++ post) (length pre)))
          ++ post.
Proof.
  induction bs as [|b bs IH]; intros i pre old post Hlen.
  - destruct old; [reflexivity | discriminate].
  - change (length old = (Nblobs b + total_blobs bs)%nat) in Hlen.
    remember (firstn (Nblobs b) old) as o1 eqn:Ho1.
    remember (skipn (Nblobs b) old) as o2 eqn:Ho2.
    assert (Hold : old = o1 ++ o2) by (subst; symmetry; apply firstn_skipn).
    assert (Hf : length o1 = Nblobs b) by (subst o1; rewrite length_firstn; lia).
    assert (Hs : length o2 = total_blobs bs) by (subst o2; rewrite length_skipn; lia).
    clear Ho1 Ho2. subst old.
    cbn [disturb_bodies disturb_body].
    set (b' := mk_Body _ _ _ _ _).
    change (Nblobs b') with (Nblobs b). rewrite <- Hf.
    rewrite <- (app_assoc o1), slice_assign_app.
    set (rows := get_r_vectors b' _ _).
    assert (Hr : length rows = Nblobs b) by apply (Nblobs_get_r_vectors b').
    replace (length pre + length o1)%nat
      with (length (pre ++ rows)) by (rewrite length_app; lia).
    rewrite (app_assoc pre rows).
    specialize (IH (S i) (pre ++ rows) o2 post Hs).
    destruct (disturb_bodies _ _ (S i) bs _ _) as [rest buf'] eqn:E.
    cbn [fst snd] in IH |- *. rewrite IH.
    unfold proposed_blobs. cbn [flat_map]. rewrite <- !app_assoc. reflexivity.
Qed.

Lemma propose_buffer (st : chain) :
  length (sample_r_vectors st) = total_blobs (bodies st) ->
  snd (propose max_angle_shift rnd st) = proposed_blobs (fst (propose max_angle_shift rnd st)).
Proof.
  intros Hlen. unfold propose.
  pose proof (disturb_bodies_buffer (bodies st) 0 [] (sample_r_vectors st) [] Hlen) as H.
  cbn [app length] in H. rewrite !app_nil_r in H. exact H.
Qed.

Lemma fill_r_vectors_buffer (bs : list Body) :
  forall (pre old post : list vec3),
    length old = total_blobs bs ->
    fill_r_vectors bs (pre ++ old ++ post) (length pre) = pre ++ current_blobs bs ++ post.
Proof.
  induction bs as [|b bs IH]; intros pre old post Hlen.
  - destruct old; [reflexivity | discriminate].
  - change (length old = (Nblobs b + total_blobs bs)%nat) in Hlen.
    remember (firstn (Nblobs b) old) as o1 eqn:Ho1.
    remember (skipn (Nblobs b) old) as o2 eqn:Ho2.
    assert (Hold : old = o1 ++ o2) by (subst; symmetry; apply firstn_skipn).
    assert (Hf : length o1 = Nblobs b) by (subst o1; rewrite length_firstn; lia).
    assert (Hs : length o2 = total_blobs bs) by (subst o2; rewrite length_skipn; lia).
    clear Ho1 Ho2. subst old.
    cbn [fill_r_vectors]. rewrite <- Hf.
    rewrite <- (app_assoc o1), slice_assign_app.
    assert (Hr : length (get_r_vectors_current b) = Nblobs b)
      by apply Nblobs_get_r_vectors.
    replace (length pre + length o1)%nat
      with (length (pre ++ get_r_vectors_current b)) by (rewrite length_app; lia).
    rewrite (app_assoc pre), (IH _ o2 post Hs).
    unfold current_blobs. cbn [flat_map]. rewrite <- !app_assoc. reflexivity.
Qed.

(** [get_blobs_r_vectors] returns the blobs of the current poses. *)
Lemma get_blobs_r_vectors_current (bs : list Body) :
  get_blobs_r_vectors bs (total_blobs bs) = current_blobs bs.
Proof.
  unfold get_blobs_r_vectors.
  pose proof (fill_r_vectors_buffer bs [] (np_empty (total_blobs bs)) []) as H.
  cbn [app length] in H. rewrite !app_nil_r in H. apply H.
  unfold np_empty. apply repeat_length.
Qed.

Lemma proposed_blobs_commit (bs : list Body) :
  proposed_blobs (map commit bs) = proposed_blobs bs.
Proof. unfold proposed_blobs. rewrite flat_map_concat_map, map_map, <- flat_map_concat_map. reflexivity. Qed.

Lemma current_blobs_commit (bs : list Body) :
  current_blobs (map commit bs) = proposed_blobs bs.
Proof. unfold current_blobs, proposed_blobs. rewrite flat_map_concat_map, map_map, <- flat_map_concat_map. reflexivity. Qed.

Lemma total_blobs_commit (bs : list Body) : total_blobs (map commit bs) = total_blobs bs.
Proof. unfold total_blobs. now rewrite map_map. Qed.

(** One iteration always completes: the energy of the proposal is evaluated
    and the acceptance test selects the next state. *)
Lemma mcmc_step_runs (st : chain) :
  let bodies1 := fst (propose max_angle_shift rnd st) in
  let buffer1 := snd (propose max_angle_shift rnd st) in
  exists sample_state_energy : double,
    compute_total_energy buffer1 kw = Some sample_state_energy
    /\ mcmc_step kw kT max_angle_shift rnd st
       = Some (if accepts kT rnd sample_state_energy (current_state_energy st)
               then accepted_state st bodies1 buffer1 sample_state_energy
               else rejected_state st bodies1 buffer1).
Proof.
  cbn zeta. unfold mcmc_step.
  destruct (propose max_angle_shift rnd st) as [bodies1 buffer1]. cbn [fst snd].
  rewrite compute_total_energy_slots. eexists. split; [reflexivity|].
  destruct (accepts _ _ _ _); reflexivity.
Qed.

Lemma accepted_not_rejected (st : chain) (bs : list Body) (buf : list vec3) (e : double) :
  accepted_state st bs buf e <> rejected_state st bs buf.
Proof.
  unfold accepted_state, rejected_state. intros H.
  apply (f_equal accepted_moves) in H. cbn in H. lia.
Qed.

Lemma total_blobs_propose (st : chain) :
  total_blobs (fst (propose max_angle_shift rnd st)) = total_blobs (bodies st).
Proof.
  unfold total_blobs, Nblobs, propose.
  destruct (disturb_bodies_frame (bodies st) 0 (sample_r_vectors st) 0) as (_ & _ & H).
  rewrite <- !(map_map reference_configuration (@length vec3)). now rewrite H.
Qed.

(** Improving moves pass the acceptance test when [kT] is positive and the
    energies are finite. *)
Lemma accepts_improving (t c c0 u : R) :
  (0 < t)%R -> (c <= c0)%R -> (0 <= u < 1)%R ->
  (Fin u <? dexp (- (Fin c - Fin c0) / Fin t)) = true.
Proof.
  intros Ht Hc Hu. cbn. rewrite Reqb0_false by lra. cbn.
  apply Rltb_true.
  assert (0 <= - (c + - c0) / t)%R as Hx
    by (apply Rmult_le_pos; [lra | left; apply Rinv_0_lt_compat; lra]).
  pose proof (exp_ineq1_le (- (c + - c0) / t)). lra.
Qed.

(** C1, as the code has it: the iteration commits the proposal exactly when
    [u < exp(-(sample_state_energy - current_state_energy) / kT)] holds for
    the draw [u], and keeps the current state exactly when it does not; when
    [kT] is positive and both energies are finite, a proposal whose energy is
    at most the current energy is committed for every draw in [[0, 1)]. *)
Theorem metropolis_acceptance (st : chain) :
  let bodies1 := fst (propose max_angle_shift rnd st) in
  let buffer1 := snd (propose max_angle_shift rnd st) in
  exists sample_state_energy : double,
    compute_total_energy buffer1 kw = Some sample_state_energy
    /\ (mcmc_step kw kT max_angle_shift rnd st
        = Some (accepted_state st bodies1 buffer1 sample_state_energy)
        <-> (uniform01 rnd
             <? dexp (- (sample_state_energy - current_state_energy st) / kT)) = true)
    /\ (mcmc_step kw kT max_angle_shift rnd st
        = Some (rejected_state st bodies1 buffer1)
        <-> (uniform01 rnd
             <? dexp (- (sample_state_energy - current_state_energy st) / kT)) = false)
    /\ (forall t c c0 u : R,
           kT = Fin t -> (0 < t)%R ->
           sample_state_energy = Fin c -> current_state_energy st = Fin c0 -> (c <= c0)%R ->
           uniform01 rnd = Fin u -> (0 <= u < 1)%R ->
           mcmc_step kw kT max_angle_shift rnd st
           = Some (accepted_state st bodies1 buffer1 sample_state_energy)).
Proof.
  cbn zeta. destruct (mcmc_step_runs st) as (e & He & Hstep). cbn zeta in Hstep.
  exists e. split; [exact He|].
  rewrite Hstep. unfold accepts.
  pose proof (accepted_not_rejected st (fst (propose max_angle_shift rnd st))
                (snd (propose max_angle_shift rnd st)) e) as Hne.
  split; [|split].
  - destruct (uniform01 rnd <? _); split; intros H; try reflexivity; try discriminate.
    exfalso; apply Hne; congruence.
  - destruct (uniform01 rnd <? _); split; intros H; try reflexivity; try discriminate.
    exfalso; apply Hne; congruence.
  - intros t c c0 u HkT Ht Hc Hc0 Hle Hu Hrange.
    rewrite HkT, Hc, Hc0, Hu, accepts_improving by assumption. reflexivity.
Qed.

(** C6: the proposal phase leaves the current location and orientation of
    every body as they were, the evaluation returns a value without touching
    the state, and an iteration whose proposal is rejected ends with every
    body's location and orientation and the current energy as they were; they
    change only in an accepted iteration, to the proposed pose and the energy
    of the proposal. *)
Theorem current_pose_frame (st : chain) :
  let bodies1 := fst (propose max_angle_shift rnd st) in
  let buffer1 := snd (propose max_angle_shift rnd st) in
  map location bodies1 = map location (bodies st)
  /\ map orientation bodies1 = map orientation (bodies st)
  /\ exists (sample_state_energy : double) (st' : chain),
      compute_total_energy buffer1 kw = Some sample_state_energy
      /\ mcmc_step kw kT max_angle_shift rnd st = Some st'
      /\ (accepts kT rnd sample_state_energy (current_state_energy st) = false ->
          map location (bodies st') = map location (bodies st)
          /\ map orientation (bodies st') = map orientation (bodies st)
          /\ current_state_energy st' = current_state_energy st)
      /\ (accepts kT rnd sample_state_energy (current_state_energy st) = true ->
          map location (bodies st') = map location_new bodies1
          /\ map orientation (bodies st') = map orientation_new bodies1
          /\ current_state_energy st' = sample_state_energy).
Proof.
  cbn zeta.
  destruct (disturb_bodies_frame (bodies st) 0 (sample_r_vectors st) 0) as (Hl & Ho & _).
  fold (propose max_angle_shift rnd st) in Hl, Ho.
  split; [exact Hl|]. split; [exact Ho|].
  destruct (mcmc_step_runs st) as (e & He & Hstep). cbn zeta in Hstep.
  exists e. eexists. split; [exact He|]. split; [exact Hstep|].
  split; intros Hacc; rewrite Hacc; cbn [bodies current_state_energy accepted_state rejected_state].
  - auto.
  - rewrite !map_map. auto.
Qed.

(** C7, as the code has it: at the end of an iteration the buffer holds the
    blobs of the proposed pose of every body; after an accepted iteration this
    is the current pose, so the buffer is what [get_blobs_r_vectors] returns
    for the bodies. *)
Theorem buffer_holds_proposed_blobs (st : chain) :
  length (sample_r_vectors st) = total_blobs (bodies st) ->
  exists (sample_state_energy : double) (st' : chain),
    compute_total_energy (snd (propose max_angle_shift rnd st)) kw = Some sample_state_energy
    /\ mcmc_step kw kT max_angle_shift rnd st = Some st'
    /\ sample_r_vectors st' = proposed_blobs (bodies st')
    /\ length (sample_r_vectors st') = total_blobs (bodies st')
    /\ (accepts kT rnd sample_state_energy (current_state_energy st) = true ->
        sample_r_vectors st' = get_blobs_r_vectors (bodies st') (total_blobs (bodies st'))).
Proof.
  intros Hlen.
  destruct (mcmc_step_runs st) as (e & He & Hstep). cbn zeta in Hstep.
  pose proof (propose_buffer st Hlen) as Hbuf.
  pose proof (total_blobs_propose st) as Htot.
  exists e. eexists. split; [exact He|]. split; [exact Hstep|].
  destruct (accepts kT rnd e (current_state_energy st));
    cbn [sample_r_vectors bodies accepted_state rejected_state].
  - rewrite get_blobs_r_vectors_current, current_blobs_commit, proposed_blobs_commit,
      total_blobs_commit.
    repeat split; try assumption; try (intros _; assumption).
    now rewrite Hbuf, length_proposed_blobs.
  - repeat split; try assumption.
    + now rewrite Hbuf, length_proposed_blobs.
    + discriminate.
Qed.

(** C8, as the code has it: the loop has no validation of the proposed poses.
    Whatever the components of the current poses and of the draws are,
    not-a-number and infinities included, the proposed pose of every body is
    the disturbed current pose; the array that the iteration passes to the
    energy function holds the blobs of these proposed poses; the iteration
    fails only if the energy function returns no value, and otherwise it ends
    in the state that the acceptance test selects for the value returned;
    with the evaluator of the program, which returns a value for every array,
    the iteration therefore completes, in the state selected for the energy
    of the blobs of the proposed poses. *)
Theorem proposals_not_validated (st : chain) :
  length (sample_r_vectors st) = total_blobs (bodies st) ->
  let bodies1 := fst (propose max_angle_shift rnd st) in
  bodies1
  = map (fun '(j, b) =>
           mk_Body (reference_configuration b) (location b) (orientation b)
                   (vadd (location b) (uniform3 rnd j))
                   (quaternion_mul
                      (from_rotation (vscale (normal3 rnd j) max_angle_shift))
                      (orientation b)))
        (combine (seq 0 (length (bodies st))) (bodies st))
  /\ (forall evaluate : list vec3 -> option double,
         mcmc_step_with evaluate kT max_angle_shift rnd st
         = match evaluate (proposed_blobs bodies1) with
           | Some sample_state_energy =>
               Some (if accepts kT rnd sample_state_energy (current_state_energy st)
                     then accepted_state st bodies1 (proposed_blobs bodies1)
                            sample_state_energy
                     else rejected_state st bodies1 (proposed_blobs bodies1))
           | None => None
           end)
  /\ mcmc_step kw kT max_angle_shift rnd st
     = mcmc_step_with (fun r_vectors => compute_total_energy r_vectors kw)
         kT max_angle_shift rnd st
  /\ exists sample_state_energy : double,
      compute_total_energy (proposed_blobs bodies1) kw = Some sample_state_energy
      /\ mcmc_step kw kT max_angle_shift rnd st
         = Some (if accepts kT rnd sample_state_energy (current_state_energy st)
                 then accepted_state st bodies1 (proposed_blobs bodies1)
                        sample_state_energy
                 else rejected_state st bodies1 (proposed_blobs bodies1)).
Proof.
  intros Hlen bodies1.
  pose proof (propose_buffer st Hlen) as Hbuf. fold bodies1 in Hbuf.
  split; [apply disturb_bodies_poses|]. split; [|split; [reflexivity|]].
  - intros evaluate. unfold mcmc_step_with.
    destruct (propose max_angle_shift rnd st) as [bs buf] eqn:E.
    cbn [fst snd] in *. subst bodies1 buf.
    destruct (evaluate (proposed_blobs bs)) as [e|]; [|reflexivity].
    now destruct (accepts kT rnd e (current_state_energy st)).
  - destruct (mcmc_step_runs st) as (e & He & Hstep). cbn zeta in Hstep.
    fold bodies1 in Hstep. rewrite Hbuf in He, Hstep.
    exists e. split; [exact He | exact Hstep].
Qed.

End ChainProperties.

(** ** One sphere: worked iterations *)

Lemma rigid_r_vectors_length (reference : list vec3) (loc : vec3) (ori : quat) :
  length (rigid_r_vectors reference loc ori) = length reference.
Proof. unfold rigid_r_vectors. apply length_map. Qed.

Ltac fin_pairs :=
  repeat match goal with
         | |- (_, _) = (_, _) => apply f_equal2
         | |- Fin _ = Fin _ => apply Fin_eq; lra
         end.

Lemma quat_from_rotation_zero :
  quat_from_rotation (vscale (Fin 0, Fin 0, Fin 0) (Fin 1)) = identity_quat.
Proof.
  unfold quat_from_rotation, vscale, identity_quat. deval. sqrt_of 0%R. deval.
  replace (0 / 2)%R with 0%R by lra. rewrite cos_0. reflexivity.
Qed.

Lemma quat_mul_identity : quat_mul identity_quat identity_quat = identity_quat.
Proof. unfold quat_mul, identity_quat. cbn. fin_pairs. Qed.

Lemma rotate_identity_origin :
  rotate identity_quat (Fin 0, Fin 0, Fin 0) = (Fin 0, Fin 0, Fin 0).
Proof. unfold rotate, identity_quat. cbn. fin_pairs. Qed.

(** The proposal for one sphere under [draws_down]: the sphere moves down by
    one and keeps its orientation. *)
Lemma propose_sphere (x y z e u : double) :
  propose (Fin 1) (draws_down u) (sphere_chain (x, y, z) e)
  = ([mk_Body [(Fin 0, Fin 0, Fin 0)] (x, y, z) identity_quat
              (x, y, z + Fin (-1)) identity_quat],
     [(x, y, z + Fin (-1))]).
Proof.
  unfold propose, sphere_chain, sphere.
  cbn [bodies sample_r_vectors disturb_bodies disturb_body draws_down uniform3 normal3
       location orientation reference_configuration from_rotation quaternion_mul
       rigid_pose].
  rewrite quat_from_rotation_zero, quat_mul_identity.
  unfold get_r_vectors, Nblobs, slice_assign.
  cbn [reference_configuration r_vectors_of_pose rigid_pose rigid_r_vectors map length
       firstn skipn app Nat.add].
  rewrite rotate_identity_origin. unfold vadd.
  cbn [vx vy vz fst snd]. rewrite !dadd_0_r. reflexivity.
Qed.

Lemma energy_single_above (x y : double) (h : R) :
  (1 < h)%R -> compute_total_energy [(x, y, Fin h)] kw_gravity = Some (Fin h).
Proof.
  intros Hh. rewrite compute_total_energy_slots. unfold_kernel. unfold kw_gravity.
  cbn -[exp Rplus Rmult Rdiv Rminus Ropp Rinv Rltb Reqb0 IZR]. unfold dgt.
  cbn -[exp Rplus Rmult Rdiv Rminus Ropp Rinv Rltb Reqb0 IZR].
  rewrite Rltb_true by lra. deval.
  f_equal. apply Fin_eq. field. lra.
Qed.

Lemma energy_single_behind (x y : double) (h : R) :
  (h <= 1)%R ->
  compute_total_energy [(x, y, Fin h)] kw_gravity = Some (Fin (100000 * (2 - h))).
Proof.
  intros Hh. rewrite compute_total_energy_slots. unfold_kernel. unfold kw_gravity.
  cbn -[exp Rplus Rmult Rdiv Rminus Ropp Rinv Rltb Reqb0 IZR]. unfold dgt.
  cbn -[exp Rplus Rmult Rdiv Rminus Ropp Rinv Rltb Reqb0 IZR].
  rewrite Rltb_false by lra.
  cbn -[exp Rplus Rmult Rdiv Rminus Ropp Rinv Rltb Reqb0 IZR].
  f_equal. apply Fin_eq. lra.
Qed.

Lemma exp_neg_le_half (x : R) : (x <= -1)%R -> (exp x <= 1 / 2)%R.
Proof.
  intros Hx.
  assert (exp x <= exp (-1))%R as H1.
  { destruct (Req_dec x (-1)) as [->|Hne]; [lra|]. left. apply exp_increasing. lra. }
  pose proof (exp_ineq1_le 1) as H2.
  replace (-1)%R with (- (1))%R in H1 by lra. rewrite exp_Ropp in H1.
  assert (/ exp 1 <= / 2)%R by (apply Rinv_le_contravar; lra).
  lra.
Qed.

(** The current energy recorded in the three chains is the energy of the
    current pose, and their buffer holds the blobs of the current pose. *)
Lemma sphere_chains_consistent :
  compute_total_energy (sample_r_vectors chain_high) kw_gravity
  = Some (current_state_energy chain_high)
  /\ compute_total_energy (sample_r_vectors chain_low) kw_gravity
     = Some (current_state_energy chain_low)
  /\ compute_total_energy (sample_r_vectors chain_nan) kw_gravity
     = Some (current_state_energy chain_nan)
  /\ sample_r_vectors chain_low = get_blobs_r_vectors (bodies chain_low) 1.
Proof.
  repeat split; try (apply energy_single_above; lra).
  unfold get_blobs_r_vectors, chain_low, sphere_chain, sphere, np_empty.
  cbn [bodies sample_r_vectors fill_r_vectors repeat].
  unfold get_r_vectors_current, get_r_vectors, slice_assign, Nblobs.
  cbn [reference_configuration location orientation r_vectors_of_pose rigid_pose
       rigid_r_vectors map length firstn skipn app Nat.add].
  rewrite rotate_identity_origin. unfold vadd. cbn. f_equal. fin_pairs.
Qed.

(** The sphere of [chain_high] moves down to [z = 3/2]; its energy drops from
    [5/2] to [3/2]. *)
Lemma proposal_high (u : double) :
  compute_total_energy (snd (propose (Fin 1) (draws_down u) chain_high)) kw_gravity
  = Some (Fin (3 / 2)).
Proof.
  unfold chain_high. rewrite propose_sphere. cbn [snd dadd].
  rewrite energy_single_above by lra. f_equal. apply Fin_eq. lra.
Qed.

(** The sphere of [chain_low] moves behind the wall; the penalty is [150000]. *)
Lemma proposal_low (u : double) :
  compute_total_energy (snd (propose (Fin 1) (draws_down u) chain_low)) kw_gravity
  = Some (Fin 150000).
Proof.
  unfold chain_low. rewrite propose_sphere. cbn [snd dadd].
  rewrite energy_single_behind by lra. f_equal. apply Fin_eq. lra.
Qed.

Lemma proposal_nan (u : double) :
  compute_total_energy (snd (propose (Fin 1) (draws_down u) chain_nan)) kw_gravity
  = Some (Fin 150000).
Proof.
  unfold chain_nan. rewrite propose_sphere. cbn [snd dadd].
  rewrite energy_single_behind by lra. f_equal. apply Fin_eq. lra.
Qed.

Lemma rejected_low :
  accepts (Fin 1) (draws_down (Fin (1 / 2))) (Fin 150000) (Fin (3 / 2)) = false.
Proof.
  unfold accepts. cbn. rewrite Reqb0_false by lra. cbn.
  apply Rltb_false. pose proof (exp_neg_le_half (- (150000 + - (3 / 2)) / 1) ltac:(lra)). lra.
Qed.

(** C1 as stated fails: with a negative [kT] the proposal of [chain_high],
    whose energy [3/2] is below the current energy [5/2], is rejected for the
    draw [1/2]; and a proposal of infinite energy from a state of infinite
    energy is rejected for the draw [0], whatever positive [kT] is. *)
Lemma improving_move_rejected :
  compute_total_energy
    (snd (propose (Fin 1) (draws_down (Fin (1 / 2))) chain_high)) kw_gravity
  = Some (Fin (3 / 2))
  /\ current_state_energy chain_high = Fin (5 / 2)
  /\ mcmc_step kw_gravity (Fin (-1)) (Fin 1) (draws_down (Fin (1 / 2))) chain_high
     = Some (rejected_state chain_high
               (fst (propose (Fin 1) (draws_down (Fin (1 / 2))) chain_high))
               (snd (propose (Fin 1) (draws_down (Fin (1 / 2))) chain_high)))
  /\ (PInf <=? PInf) = true
  /\ accepts (Fin 1) (draws_down (Fin 0)) PInf PInf = false.
Proof.
  split; [apply proposal_high|]. split; [reflexivity|]. split; [|split; reflexivity].
  destruct (mcmc_step_runs kw_gravity (Fin (-1)) (Fin 1) (draws_down (Fin (1 / 2))) chain_high)
    as (e & He & Hstep).
  rewrite proposal_high in He. injection He as <-. cbn zeta in Hstep. rewrite Hstep.
  replace (accepts _ _ _ _) with false; [reflexivity|].
  symmetry. unfold accepts, chain_high, sphere_chain. cbn. rewrite Reqb0_false by lra. cbn.
  apply Rltb_false.
  pose proof (exp_neg_le_half (- (3 / 2 + - (5 / 2)) / -1) ltac:(lra)). lra.
Qed.

Lemma metropolis_acceptance_witness :
  mcmc_step kw_gravity (Fin 1) (Fin 1) (draws_down (Fin (1 / 2))) chain_high
  = Some (accepted_state chain_high
            (fst (propose (Fin 1) (draws_down (Fin (1 / 2))) chain_high))
            (snd (propose (Fin 1) (draws_down (Fin (1 / 2))) chain_high))
            (Fin (3 / 2))).
Proof.
  destruct (metropolis_acceptance kw_gravity (Fin 1) (Fin 1) (draws_down (Fin (1 / 2)))
              chain_high) as (e & He & _ & _ & Himp).
  rewrite proposal_high in He. injection He as <-.
  apply (Himp 1%R (3 / 2)%R (5 / 2)%R (1 / 2)%R); try reflexivity; lra.
Defined.

Lemma current_pose_frame_witness :
  exists st' : chain,
    mcmc_step kw_gravity (Fin 1) (Fin 1) (draws_down (Fin (1 / 2))) chain_low = Some st'
    /\ map location (bodies st') = map location (bodies chain_low)
    /\ map orientation (bodies st') = map orientation (bodies chain_low)
    /\ current_state_energy st' = current_state_energy chain_low.
Proof.
  destruct (current_pose_frame kw_gravity (Fin 1) (Fin 1) (draws_down (Fin (1 / 2)))
              chain_low) as (_ & _ & e & st' & He & Hstep & Hrej & _).
  rewrite proposal_low in He. injection He as <-.
  exists st'. split; [exact Hstep|]. apply Hrej. exact rejected_low.
Defined.

(** C7 as stated fails: [chain_low] is in sync, its proposal is rejected, and
    the buffer is left with the blob of the rejected pose, which is not the
    blob of the current pose. *)
Lemma buffer_out_of_sync_after_rejection :
  sample_r_vectors chain_low = get_blobs_r_vectors (bodies chain_low) 1
  /\ exists st' : chain,
      mcmc_step kw_gravity (Fin 1) (Fin 1) (draws_down (Fin (1 / 2))) chain_low = Some st'
      /\ map location (bodies st') = map location (bodies chain_low)
      /\ sample_r_vectors st'
         <> get_blobs_r_vectors (bodies st') (total_blobs (bodies st')).
Proof.
  split; [apply sphere_chains_consistent|].
  destruct (mcmc_step_runs kw_gravity (Fin 1) (Fin 1) (draws_down (Fin (1 / 2))) chain_low)
    as (e & He & Hstep).
  rewrite proposal_low in He. injection He as <-. cbn zeta in Hstep.
  change (current_state_energy chain_low) with (Fin (3 / 2)) in Hstep.
  rewrite rejected_low in Hstep. eexists. split; [exact Hstep|].
  unfold chain_low in *. rewrite propose_sphere.
  cbn [rejected_state bodies sample_r_vectors fst snd map location].
  split; [reflexivity|].
  rewrite (@get_blobs_r_vectors_current rigid_pose rigid_r_vectors_length).
  unfold current_blobs, get_r_vectors_current, get_r_vectors.
  cbn [flat_map reference_configuration location orientation r_vectors_of_pose rigid_pose
       rigid_r_vectors map app].
  rewrite rotate_identity_origin. unfold vadd. cbn.
  intros H. injection H as H. lra.
Qed.

Lemma buffer_holds_proposed_blobs_witness :
  exists (e : double) (st' : chain),
    mcmc_step kw_gravity (Fin 1) (Fin 1) (draws_down (Fin (1 / 2))) chain_low = Some st'
    /\ sample_r_vectors st' = proposed_blobs (bodies st').
Proof.
  destruct (@buffer_holds_proposed_blobs rigid_pose rigid_r_vectors_length kw_gravity (Fin 1) (Fin 1)
              (draws_down (Fin (1 / 2))) chain_low eq_refl)
    as (e & st' & _ & Hstep & Hbuf & _).
  exists e, st'. split; assumption.
Defined.

(** C8 as stated fails: the sphere of [chain_nan] has a not-a-number in its
    location and so in its proposed location; the iteration does not fail, the
    evaluator receives the row with the not-a-number and returns the energy
    [150000], and the iteration ends with the proposal rejected by the
    acceptance test, the row still in the buffer. *)
Lemma nan_pose_reaches_evaluator :
  propose (Fin 1) (draws_down (Fin (1 / 2))) chain_nan
  = ([mk_Body [(Fin 0, Fin 0, Fin 0)] (NaN, Fin 0, Fin (3 / 2)) identity_quat
              (NaN, Fin 0, Fin (3 / 2) + Fin (-1)) identity_quat],
     [(NaN, Fin 0, Fin (3 / 2) + Fin (-1))])
  /\ compute_total_energy [(NaN, Fin 0, Fin (3 / 2) + Fin (-1))] kw_gravity
     = Some (Fin 150000)
  /\ mcmc_step kw_gravity (Fin 1) (Fin 1) (draws_down (Fin (1 / 2))) chain_nan
     = Some (mk_chain
               [mk_Body [(Fin 0, Fin 0, Fin 0)] (NaN, Fin 0, Fin (3 / 2)) identity_quat
                        (NaN, Fin 0, Fin (3 / 2) + Fin (-1)) identity_quat]
               [(NaN, Fin 0, Fin (3 / 2) + Fin (-1))] (Fin (3 / 2)) 0).
Proof.
  pose proof (proposal_nan (Fin (1 / 2))) as H. unfold chain_nan in H.
  rewrite propose_sphere in H. cbn [snd] in H.
  split; [apply propose_sphere|]. split; [exact H|].
  unfold mcmc_step, chain_nan. rewrite propose_sphere, H.
  change (current_state_energy (sphere_chain (NaN, Fin 0, Fin (3 / 2)) (Fin (3 / 2))))
    with (Fin (3 / 2)).
  rewrite rejected_low. reflexivity.
Qed.

Lemma proposals_not_validated_witness :
  exists e : double,
    compute_total_energy
      (proposed_blobs (fst (propose (Fin 1) (draws_down (Fin (1 / 2))) chain_nan)))
      kw_gravity = Some e
    /\ mcmc_step kw_gravity (Fin 1) (Fin 1) (draws_down (Fin (1 / 2))) chain_nan
       = Some (if accepts (Fin 1) (draws_down (Fin (1 / 2))) e
                    (current_state_energy chain_nan)
               then accepted_state chain_nan
                      (fst (propose (Fin 1) (draws_down (Fin (1 / 2))) chain_nan))
                      (proposed_blobs
                         (fst (propose (Fin 1) (draws_down (Fin (1 / 2))) chain_nan)))
                      e
               else rejected_state chain_nan
                      (fst (propose (Fin 1) (draws_down (Fin (1 / 2))) chain_nan))
                      (proposed_blobs
                         (fst (propose (Fin 1) (draws_down (Fin (1 / 2))) chain_nan)))).
Proof.
  exact (proj2 (proj2 (proj2
           (@proposals_not_validated rigid_pose rigid_r_vectors_length kw_gravity
              (Fin 1) (Fin 1) (draws_down (Fin (1 / 2))) chain_nan eq_refl)))).
Defined.

(** ** Coincident blobs *)

Lemma finite_or_pinf_dadd (a b : double) :
  finite_or_pinf a = true -> finite_or_pinf b = true -> finite_or_pinf (a + b) = true.
Proof. destruct a, b; cbn; congruence. Qed.

Lemma finite_or_pinf_dsum (l : list double) :
  (forall d, In d l -> finite_or_pinf d = true) -> finite_or_pinf (dsum l) = true.
Proof.
  induction l as [|a l IH]; intros H; cbn [dsum]; [reflexivity|].
  apply finite_or_pinf_dadd; [apply H; now left | apply IH; intros; apply H; now right].
Qed.

Lemma dadd_pinf (a : double) : finite_or_pinf a = true -> a + PInf = PInf /\ PInf + a = PInf.
Proof. destruct a; cbn; intros; try discriminate; split; reflexivity. Qed.

Lemma dsum_pinf (l : list double) :
  (forall d, In d l -> finite_or_pinf d = true) -> In PInf l -> dsum l = PInf.
Proof.
  induction l as [|a l IH]; intros H Hin; [contradiction|].
  cbn [dsum]. destruct Hin as [->|Hin].
  - apply dadd_pinf, finite_or_pinf_dsum. intros; apply H; now right.
  - rewrite IH; [|intros; apply H; now right|assumption].
    apply dadd_pinf, H. now left.
Qed.

Lemma is_finite_dsum (l : list double) :
  (forall d, In d l -> is_finite d = true) -> is_finite (dsum l) = true.
Proof.
  induction l as [|a l IH]; intros H; cbn [dsum]; [reflexivity|].
  assert (is_finite a = true) as Ha by (apply H; now left).
  assert (is_finite (dsum l) = true) as Hl by (apply IH; intros; apply H; now right).
  destruct a, (dsum l); cbn in *; congruence.
Qed.

Lemma wrap_finite (l d : R) : exists d' : R, wrap (Fin l) (Fin d) = Fin d'.
Proof.
  unfold wrap, dgt. cbn [dlt]. destruct (Rltb_spec 0 l) as [Hl|Hl].
  - rewrite min_image_finite by lra. eexists; reflexivity.
  - eexists; reflexivity.
Qed.

Lemma wrap_zero (l d : R) : d = 0%R -> wrap (Fin l) (Fin d) = Fin 0.
Proof.
  intros ->. unfold wrap, dgt. cbn [dlt]. destruct (Rltb_spec 0 l) as [Hl|Hl]; [|reflexivity].
  rewrite min_image_finite by lra.
  assert (Hq : image_quotient 0 l = 0%R).
  { unfold image_quotient. rewrite !Rltb_false by lra. cbn. unfold Rdiv. lra. }
  rewrite Hq, Ztrunc_nonneg by lra. rewrite (ZfloorZ 0), clamp_int_id by (unfold INT_MIN, INT_MAX; lia).
  apply Fin_eq. lra.
Qed.

Lemma sum_squares_not_neg (a b c : R) : ~ (a * a + b * b + c * c < 0)%R.
Proof.
  pose proof (Rle_0_sqr a). pose proof (Rle_0_sqr b). pose proof (Rle_0_sqr c).
  unfold Rsqr in *. lra.
Qed.

Section FiniteParameters.

Variable kw : kwargs.
Variables lx ly dlw ew dl e w a : R.
Hypothesis kw_finite : kw = finite_kwargs lx ly dlw ew dl e w a.
Hypothesis dlw_pos : (0 < dlw)%R.
Hypothesis dl_pos : (0 < dl)%R.
Hypothesis e_pos : (0 < e)%R.

Lemma blob_blob_term_finite_or_pinf (p q : R * R * R) :
  finite_or_pinf (blob_blob_term kw (fin3 p) (fin3 q)) = true.
Proof.
  rewrite kw_finite. unfold blob_blob_term, finite_kwargs, fin3.
  cbn [periodic_length kw_debye_length repulsion_strength fst snd vx vy vz dsub dneg dadd].
  destruct (wrap_finite lx (fst (fst p) + - fst (fst q))) as [rx ->].
  destruct (wrap_finite ly (snd (fst p) + - snd (fst q))) as [ry ->].
  cbn [dmul dadd dsqrt].
  rewrite Rltb_false by apply sum_squares_not_neg.
  cbn [dneg ddiv]. rewrite (Reqb0_false dl) by lra.
  cbn [dexp dmul ddiv].
  destruct (Reqb0 (sqrt _)); [|reflexivity].
  unfold inf_of_sign. rewrite Rltb_true; [reflexivity|].
  apply Rmult_lt_0_compat; [assumption | apply exp_pos].
Qed.

Lemma blob_blob_term_coincident (p : R * R * R) :
  blob_blob_term kw (fin3 p) (fin3 p) = PInf.
Proof.
  rewrite kw_finite. unfold blob_blob_term, finite_kwargs, fin3.
  cbn [periodic_length kw_debye_length repulsion_strength fst snd vx vy vz dsub dneg dadd].
  rewrite !wrap_zero by lra.
  cbn [dmul dadd dsqrt].
  replace (0 * 0 + 0 * 0 + (snd p + - snd p) * (snd p + - snd p))%R with 0%R by lra.
  rewrite Rltb_false by lra. rewrite sqrt_0.
  cbn [dneg ddiv]. rewrite (Reqb0_false dl) by lra.
  cbn [dexp dmul ddiv]. rewrite Reqb0_true by reflexivity.
  unfold inf_of_sign. rewrite Rltb_true; [reflexivity|].
  apply Rmult_lt_0_compat; [assumption | apply exp_pos].
Qed.

Lemma single_term_finite (p : R * R * R) :
  is_finite (single_term kw (fin3 p)) = true.
Proof.
  rewrite kw_finite.
  unfold single_term, above_wall, one_blob_term, wall_penalty, finite_kwargs, fin3, dgt.
  cbn [kw_blob_radius kw_weight repulsion_strength_wall kw_debye_length_wall
       fst snd vx vy vz dlt dsub dneg dadd dmul ddiv].
  destruct (Rltb_spec a (snd p)) as [Hz|Hz]; [|reflexivity].
  rewrite (Reqb0_false dlw) by lra. cbn [dexp dmul ddiv].
  rewrite Reqb0_false by lra. reflexivity.
Qed.

Lemma row_fin3 (pts : list (R * R * R)) (i : nat) :
  (i < length pts)%nat -> row (map fin3 pts) i = fin3 (nth i pts (0, 0, 0)%R).
Proof.
  intros Hi. unfold row.
  rewrite nth_indep with (d' := fin3 (0, 0, 0)%R) by now rewrite length_map.
  apply map_nth.
Qed.

Lemma pair_energies_finite_or_pinf (pts : list (R * R * R)) :
  forall d,
    In d (map (pair_energy kw (map fin3 pts)) (counted_pairs kw (map fin3 pts))) ->
    finite_or_pinf d = true.
Proof.
  intros d Hd. apply in_map_iff in Hd as ([i j] & <- & Hin).
  unfold counted_pairs in Hin. apply filter_In in Hin as [Hin _].
  apply in_unordered_pairs in Hin. rewrite length_map in Hin.
  unfold pair_energy. cbn [fst snd]. rewrite !row_fin3 by lia.
  apply blob_blob_term_finite_or_pinf.
Qed.

Lemma single_terms_sum_finite (pts : list (R * R * R)) :
  is_finite (dsum (map (single_term kw) (map fin3 pts))) = true.
Proof.
  apply is_finite_dsum. intros d Hd. rewrite map_map in Hd.
  apply in_map_iff in Hd as (p & <- & _). apply single_term_finite.
Qed.

(** C9, as the code has it: the kernel has no guard for coincident blobs.
    In exact arithmetic on the finite values (no rounding, overflow or
    underflow of a finite result; the IEEE rules for division by zero, the
    infinities and NaN), for finite coordinates and parameters with positive
    screening lengths and a positive repulsion strength, the energy returned
    is never a NaN: it is finite or plus infinity; and it is plus infinity
    when two coincident blobs are above the wall. *)
Theorem coincident_blobs_energy (pts : list (R * R * R)) :
  (exists u : double,
      compute_total_energy (map fin3 pts) kw = Some u /\ finite_or_pinf u = true)
  /\ (forall i j : nat,
         (i < j < length pts)%nat ->
         nth i pts (0, 0, 0)%R = nth j pts (0, 0, 0)%R ->
         above_wall kw (row (map fin3 pts) i) = true ->
         compute_total_energy (map fin3 pts) kw = Some PInf).
Proof.
  pose proof (single_terms_sum_finite pts) as Hs.
  pose proof (pair_energies_finite_or_pinf pts) as Hp.
  rewrite total_energy_decomposition.
  destruct (dsum (map (single_term kw) (map fin3 pts))) as [s| | |] eqn:Es;
    try discriminate.
  split.
  - eexists. split; [reflexivity|].
    apply finite_or_pinf_dadd; [reflexivity | now apply finite_or_pinf_dsum].
  - intros i j Hij Heq Hab. f_equal.
    rewrite dsum_pinf; [reflexivity | assumption |].
    apply in_map_iff. exists (i, j). split.
    + unfold pair_energy. cbn [fst snd]. rewrite !row_fin3 by lia.
      rewrite Heq. apply blob_blob_term_coincident.
    + unfold counted_pairs. apply filter_In. split; [|exact Hab].
      apply in_unordered_pairs. now rewrite length_map.
Qed.

End FiniteParameters.

Lemma coincident_blobs_energy_witness :
  compute_total_energy coincident_blobs kw_unit = Some PInf.
Proof.
  apply (proj2 (coincident_blobs_energy kw_unit 0 0 1 1 1 1 1 1 eq_refl
                  ltac:(lra) ltac:(lra) ltac:(lra) [(0, 0, 2); (0, 0, 2)]%R) 0%nat 1%nat).
  - cbn. lia.
  - reflexivity.
  - cbn. apply Rltb_true. lra.
Defined.

(** C9 as stated fails: with a repulsion strength of zero the term of two
    coincident blobs is [0 / 0], and the energy returned is a NaN. *)
Lemma coincident_blobs_nan :
  compute_total_energy coincident_blobs kw_no_repulsion = Some NaN.
Proof.
  rewrite compute_total_energy_slots. unfold_kernel.
  unfold kw_no_repulsion, coincident_blobs. deval. sqrt_of 0%R. deval.
  unfold inf_of_sign. rdecide. reflexivity.
Qed.

(** * Further properties of the energy evaluation *)

(** ** Launch geometry *)

(** X1: The heuristic picks the block size by the number of elements: 32 threads
    below 8192 elements, 64 below 16384, 128 below 65536, 256 below 262144 and
    512 from there on. *)
Theorem threads_per_block_thresholds (n : Z) :
  fst (set_number_of_threads_and_blocks n)
  = (if n <? 8192 then 32
     else if n <? 16384 then 64
     else if n <? 65536 then 128
     else if n <? 262144 then 256
     else 512)%Z.
Proof.
  unfold set_number_of_threads_and_blocks. cbn [fst].
  repeat match goal with
         | |- context [(?a <? ?b)%Z] =>
             lazymatch a with
             | context [if _ then _ else _] => fail
             | _ => destruct (Z.ltb_spec a b)
             end
         end; try reflexivity; exfalso; Z.div_mod_to_equations; lia.
Qed.

(** X2: The number of blocks is the least one whose threads cover the elements:
    for at least one element the last block is needed and the grid reaches
    every element; for no element there is no block. *)
Theorem num_blocks_least_cover (n : Z) :
  let '(threads_per_block, num_blocks) := set_number_of_threads_and_blocks n in
  ((1 <= n ->
    threads_per_block * (num_blocks - 1) < n <= threads_per_block * num_blocks)
   /\ (n = 0 -> num_blocks = 0))%Z.
Proof.
  pose proof (threads_per_block_thresholds n) as Ht.
  unfold set_number_of_threads_and_blocks in *. cbn [fst] in Ht.
  set (tpb := if (_ <? 128)%Z then 32%Z else _) in *.
  assert (0 < tpb)%Z as Hpos
    by (rewrite Ht; repeat match goal with
                           | |- context [(?a <? ?b)%Z] => destruct (Z.ltb_spec a b)
                           end; lia).
  clearbody tpb. split.
  - intros Hn. Z.div_mod_to_equations. nia.
  - intros ->. Z.div_mod_to_equations. nia.
Qed.

Lemma num_blocks_least_cover_witness :
  (32 * (1 - 1) < 20 <= 32 * 1)%Z.
Proof.
  exact (proj1 (num_blocks_least_cover 20) ltac:(lia)).
Defined.

(** ** Threads write disjoint slots *)

Lemma length_store (U : device_array) (i : nat) (u : double) :
  length (store U i u) = length U.
Proof. revert i; induction U as [|s U IH]; intros [|i]; cbn [store length]; auto. Qed.

Lemma nth_store (U : device_array) (i k : nat) (u : double) :
  (i < length U)%nat ->
  nth k (store U i u) None = if (k =? i)%nat then Some u else nth k U None.
Proof.
  revert i k; induction U as [|s U IH]; intros i k Hi; cbn [length] in Hi; [lia|].
  destruct i as [|i], k as [|k]; cbn [store nth Nat.eqb]; try reflexivity.
  apply IH. lia.
Qed.

Section ThreadOrder.

Variable kernel : nat -> option double.
Variable f : nat -> double.
Variable n : nat.
Hypothesis kernel_writes : forall i, (i < n)%nat -> kernel i = Some (f i).
Hypothesis kernel_guard : forall i, (n <= i)%nat -> kernel i = None.

Lemma launch_in_order_length (order : list nat) (U : device_array) :
  length U = n -> length (launch_in_order kernel order U) = n.
Proof.
  unfold launch_in_order. revert U. induction order as [|t order IH]; intros U HU; [exact HU|].
  cbn [fold_left]. apply IH. destruct (kernel t); [now rewrite length_store | exact HU].
Qed.

Lemma launch_in_order_slot (order : list nat) (U : device_array) (k : nat) :
  length U = n -> (k < n)%nat ->
  nth k (launch_in_order kernel order U) None
  = if existsb (Nat.eqb k) order then Some (f k) else nth k U None.
Proof.
  unfold launch_in_order. revert U. induction order as [|t order IH]; intros U HU Hk;
    [reflexivity|].
  cbn [fold_left existsb].
  destruct (Nat.lt_ge_cases t n) as [Ht|Ht].
  - rewrite kernel_writes by assumption.
    rewrite IH by (rewrite ?length_store; assumption).
    rewrite nth_store by lia.
    destruct (Nat.eqb_spec k t) as [->|Hkt]; cbn [orb].
    + now destruct (existsb _ order).
    + reflexivity.
  - rewrite kernel_guard by assumption. rewrite IH by assumption.
    destruct (Nat.eqb_spec k t) as [->|Hkt]; [lia | reflexivity].
Qed.

Lemma launch_in_order_all (order : list nat) :
  (forall k, (k < n)%nat -> In k order) ->
  launch_in_order kernel order (repeat None n) = map Some (map f (seq 0 n)).
Proof.
  intros Hall. apply nth_ext with (d := None) (d' := None).
  - rewrite launch_in_order_length by apply repeat_length.
    now rewrite !length_map, length_seq.
  - rewrite launch_in_order_length by apply repeat_length. intros k Hk.
    rewrite launch_in_order_slot by (try apply repeat_length; assumption).
    replace (existsb (Nat.eqb k) order) with true.
    + rewrite (nth_indep (map Some (map f (seq 0 n))) None (Some (f 0)))
        by now rewrite !length_map, length_seq.
      rewrite map_nth, map_nth, seq_nth by assumption. reflexivity.
    + symmetry. apply existsb_exists. exists k. split; [now apply Hall | apply Nat.eqb_refl].
Qed.

End ThreadOrder.

Lemma memcpy_dtoh_unwritten (U : device_array) (k : nat) :
  (k < length U)%nat -> nth k U None = None -> memcpy_dtoh U = None.
Proof.
  revert k; induction U as [|s U IH]; intros k Hk Hnone; cbn [length] in Hk; [lia|].
  destruct k as [|k]; cbn [nth] in Hnone.
  - subst s. reflexivity.
  - cbn [memcpy_dtoh]. destruct s; [|reflexivity].
    now rewrite (IH k) by (assumption || lia).
Qed.

Lemma kernel_writes_slot (r_vectors : list vec3) (kw : kwargs) (i : nat) :
  (i < length r_vectors)%nat ->
  potential_from_position_blobs (reshape r_vectors) (length r_vectors)
    (fst (periodic_length kw)) (snd (periodic_length kw))
    (kw_debye_length_wall kw) (repulsion_strength_wall kw)
    (kw_debye_length kw) (repulsion_strength kw) (kw_weight kw) (kw_blob_radius kw) i
  = Some (thread_energy (reshape r_vectors) (length r_vectors)
            (fst (periodic_length kw)) (snd (periodic_length kw))
            (kw_debye_length_wall kw) (repulsion_strength_wall kw)
            (kw_debye_length kw) (repulsion_strength kw) (kw_weight kw) (kw_blob_radius kw) i).
Proof.
  intros Hi. unfold potential_from_position_blobs.
  destruct (Nat.leb_spec (length r_vectors) i); [lia | reflexivity].
Qed.

Lemma kernel_guards_slot (r_vectors : list vec3) (kw : kwargs) (i : nat) :
  (length r_vectors <= i)%nat ->
  potential_from_position_blobs (reshape r_vectors) (length r_vectors)
    (fst (periodic_length kw)) (snd (periodic_length kw))
    (kw_debye_length_wall kw) (repulsion_strength_wall kw)
    (kw_debye_length kw) (repulsion_strength kw) (kw_weight kw) (kw_blob_radius kw) i
  = None.
Proof.
  intros Hi. unfold potential_from_position_blobs.
  destruct (Nat.leb_spec (length r_vectors) i); [reflexivity | lia].
Qed.

(** X3: The threads of the kernel write disjoint slots, so the energy does not
    depend on the order in which they run: every schedule that runs the thread
    of each blob gives the energy of [blobs_potential], and a schedule that
    misses the thread of a blob leaves its slot unwritten and gives no
    energy. *)
Theorem thread_order_irrelevant (order : list nat) (r_vectors : list vec3) (kw : kwargs) :
  ((forall k, (k < length r_vectors)%nat -> In k order) ->
   blobs_potential_in_order order r_vectors kw = blobs_potential r_vectors kw)
  /\ ((exists k, (k < length r_vectors)%nat /\ ~ In k order) ->
      blobs_potential_in_order order r_vectors kw = None).
Proof.
  split.
  - intros Hall. rewrite blobs_potential_slots. unfold blobs_potential_in_order.
    rewrite launch_in_order_all
      with (f := thread_energy (reshape r_vectors) (length r_vectors)
                   (fst (periodic_length kw)) (snd (periodic_length kw))
                   (kw_debye_length_wall kw) (repulsion_strength_wall kw)
                   (kw_debye_length kw) (repulsion_strength kw)
                   (kw_weight kw) (kw_blob_radius kw));
      try assumption.
    + rewrite memcpy_dtoh_written, np_sum_dsum. reflexivity.
    + intros i Hi. now apply kernel_writes_slot.
    + intros i Hi. now apply kernel_guards_slot.
  - intros (k & Hk & Hnot). unfold blobs_potential_in_order.
    rewrite (memcpy_dtoh_unwritten _ k); [reflexivity| |].
    + rewrite launch_in_order_length with (n := length r_vectors);
        [assumption | apply repeat_length].
    + rewrite launch_in_order_slot
        with (f := thread_energy (reshape r_vectors) (length r_vectors)
                   (fst (periodic_length kw)) (snd (periodic_length kw))
                   (kw_debye_length_wall kw) (repulsion_strength_wall kw)
                   (kw_debye_length kw) (repulsion_strength kw)
                   (kw_weight kw) (kw_blob_radius kw)) (n := length r_vectors);
        try assumption; try apply repeat_length.
      * replace (existsb (Nat.eqb k) order) with false.
        { apply nth_repeat. }
        symmetry. apply not_true_is_false. intros Hex.
        apply existsb_exists in Hex as (t & Ht & Heq).
        apply Nat.eqb_eq in Heq. subst t. contradiction.
      * intros i Hi. now apply kernel_writes_slot.
      * intros i Hi. now apply kernel_guards_slot.
Qed.

Lemma thread_order_irrelevant_witness :
  blobs_potential_in_order [7; 1; 0; 1]%nat [blob_above; blob_aside] kw_unit
  = blobs_potential [blob_above; blob_aside] kw_unit.
Proof.
  apply (proj1 (thread_order_irrelevant [7; 1; 0; 1]%nat [blob_above; blob_aside] kw_unit)).
  intros k Hk. cbn in Hk. cbn. lia.
Defined.

(** X4: The evaluation always returns a value: the launch writes the slot of every
    blob before the slots are summed, the value is the sum of the values the
    threads store, and the bodies add nothing to the energy of the blobs. *)
Theorem energy_evaluation_total (r_vectors : list vec3) (kw : kwargs) :
  compute_total_energy r_vectors kw = blobs_potential r_vectors kw
  /\ blobs_potential r_vectors kw = Some (dsum (slot_energies r_vectors kw))
  /\ length (slot_energies r_vectors kw) = length r_vectors.
Proof.
  split; [|split].
  - now rewrite compute_total_energy_slots, blobs_potential_slots.
  - apply blobs_potential_slots.
  - unfold slot_energies. now rewrite length_map, length_seq.
Qed.

(** X5: The flat array of the kernel is the row-major image of the coordinate
    array: it has three entries per blob and the entries [3i], [3i+1], [3i+2]
    are the x, y and z coordinates of blob [i]. *)
Theorem reshape_layout (r_vectors : list vec3) :
  length (reshape r_vectors) = (3 * length r_vectors)%nat
  /\ (forall i : nat,
         (i < length r_vectors)%nat ->
         (reshape r_vectors).[i * 3] = vx (nth i r_vectors (NaN, NaN, NaN))
         /\ (reshape r_vectors).[i * 3 + 1] = vy (nth i r_vectors (NaN, NaN, NaN))
         /\ (reshape r_vectors).[i * 3 + 2] = vz (nth i r_vectors (NaN, NaN, NaN))).
Proof.
  split.
  - induction r_vectors as [|v rest IH]; cbn [reshape length]; [reflexivity|].
    rewrite IH. lia.
  - intros i _. apply reshape_get.
Qed.

Lemma reshape_layout_witness :
  (reshape [blob_above; blob_aside]).[1 * 3] = Fin 1.
Proof.
  exact (proj1 (proj2 (reshape_layout [blob_above; blob_aside]) 1%nat ltac:(cbn; lia))).
Defined.

(** ** Periodic images *)

Lemma quotient_half (d l : R) :
  (0 < l)%R -> (Rabs d < l / 2)%R -> (- (1 / 2) < d / l < 1 / 2)%R.
Proof.
  intros Hl Hd. apply Rabs_def2 in Hd.
  pose proof (Rinv_0_lt_compat l Hl) as Hi.
  assert (l * / l = 1)%R as H1 by (field; lra).
  unfold Rdiv. split; nra.
Qed.

Lemma Ztrunc_small (q : R) : (-1 < q < 1)%R -> Ztrunc q = 0%Z.
Proof.
  intros Hq. destruct (Rlt_le_dec q 0) as [Hn|Hn].
  - rewrite Ztrunc_neg by assumption. apply Zceil_eq. simpl. lra.
  - rewrite Ztrunc_nonneg by assumption. apply Zfloor_eq. simpl. lra.
Qed.

Lemma image_quotient_cases (d l : R) :
  (0 < d /\ image_quotient d l = d / l + 1 / 2)%R
  \/ (d = 0 /\ image_quotient d l = 0)%R
  \/ (d < 0 /\ image_quotient d l = d / l - 1 / 2)%R.
Proof.
  unfold image_quotient. destruct (Rtotal_order d 0) as [Hd|[Hd|Hd]].
  - right; right. rewrite (Rltb_false 0 d), (Rltb_true d 0) by lra. cbn. split; lra.
  - right; left. subst d. rewrite !Rltb_false by lra. cbn. unfold Rdiv. split; lra.
  - left. rewrite (Rltb_true 0 d), (Rltb_false d 0) by lra. cbn. split; lra.
Qed.

Lemma Rabs_le_between (x b : R) : (Rabs x <= b)%R -> (- b <= x <= b)%R.
Proof.
  intros H. unfold Rabs in H. destruct (Rcase_abs x); lra.
Qed.

(** X6: A displacement of at most a quarter of the period is left as it is by
    the minimum-image update: the quotient [d / l] is at most [1/4] in
    absolute value, the number converted to [int] lies between [1/2] and
    [3/4] in absolute value (or is zero), the conversion gives 0 and the
    update subtracts [0 * l].  The margin to 1 keeps the conversion at 0 under
    the rounding of the double operations as well. *)
Theorem wrap_within_quarter_period (d l : R) :
  (0 < l)%R -> (Rabs d <= l / 4)%R -> wrap (Fin l) (Fin d) = Fin d.
Proof.
  intros Hl Hd.
  assert (Rabs d < l / 2)%R as Hd' by lra.
  pose proof (quotient_half d l Hl Hd') as Hq.
  rewrite wrap_finite_in_range; [|assumption|].
  - apply Fin_eq. rewrite Ztrunc_small; [simpl; lra|].
    destruct (image_quotient_cases d l) as [[H0 ->]|[[H0 ->]|[H0 ->]]]; lra.
  - assert (Rabs (d / l) < 1 / 2)%R by (apply Rabs_def1; lra). lra.
Qed.

Lemma wrap_within_quarter_period_witness : wrap (Fin 4) (Fin (-1)) = Fin (-1).
Proof.
  apply wrap_within_quarter_period.
  - lra.
  - rewrite Rabs_left by lra. lra.
Defined.

(** Two nearest images of displacements one period apart have the same
    square: they are equal, or they are the two ends of the half-period
    interval. *)
Lemma wrap_period_shift_square (d l : R) :
  (0 < l)%R ->
  (Rabs (d / l) + 1 / 2 < 2147483648)%R ->
  (Rabs ((d + l) / l) + 1 / 2 < 2147483648)%R ->
  exists a b : R,
    wrap (Fin l) (Fin d) = Fin a /\ wrap (Fin l) (Fin (d + l)) = Fin b
    /\ (a * a = b * b)%R.
Proof.
  intros Hl H1 H2.
  rewrite !wrap_finite_in_range by assumption.
  set (n := Ztrunc (image_quotient d l)).
  set (m := Ztrunc (image_quotient (d + l) l)).
  do 2 eexists. split; [reflexivity|]. split; [reflexivity|].
  pose proof (image_quotient_near d l Hl) as Hn. fold n in Hn.
  pose proof (image_quotient_near (d + l) l Hl) as Hm. fold m in Hm.
  assert ((d + l) / l = d / l + 1)%R as Hs by (field; lra). rewrite Hs in Hm.
  apply Rabs_le_between in Hn, Hm.
  assert (-1 <= m - n - 1 <= 1)%Z as Hk.
  { split; apply le_IZR; rewrite !minus_IZR; simpl; lra. }
  assert (d = d / l * l)%R as Hd by (field; lra).
  assert (m - n - 1 = -1 \/ m - n - 1 = 0 \/ m - n - 1 = 1)%Z as [Hc|[Hc|Hc]] by lia;
    apply (f_equal IZR) in Hc; rewrite !minus_IZR in Hc; simpl in Hc.
  - assert (d / l - IZR n = - (1 / 2))%R by lra.
    assert (d / l + 1 - IZR m = 1 / 2)%R by lra. nra.
  - assert (IZR m = IZR n + 1)%R as -> by lra. nra.
  - assert (d / l - IZR n = 1 / 2)%R by lra.
    assert (d / l + 1 - IZR m = - (1 / 2))%R by lra. nra.
Qed.

Lemma range_after_shift (d l : R) :
  (0 < l)%R -> (Rabs (d / l) + 3 / 2 < 2147483648)%R ->
  (Rabs (d / l) + 1 / 2 < 2147483648)%R
  /\ (Rabs ((d + l) / l) + 1 / 2 < 2147483648)%R
  /\ (Rabs ((d - l) / l) + 1 / 2 < 2147483648)%R.
Proof.
  intros Hl H.
  assert ((d + l) / l = d / l + 1)%R as -> by (field; lra).
  assert ((d - l) / l = d / l - 1)%R as -> by (field; lra).
  pose proof (Rabs_triang (d / l) 1) as H1.
  pose proof (Rabs_triang (d / l) (- (1))) as H2.
  rewrite Rabs_R1 in H1. rewrite Rabs_Ropp, Rabs_R1 in H2.
  replace (d / l - 1)%R with (d / l + - (1))%R by lra.
  repeat split; lra.
Qed.

Lemma blob_blob_term_same_squares (kw : kwargs) (v w v' w' : vec3) (a b : R) :
  wrap (fst (periodic_length kw)) (vx v - vx w) = Fin a ->
  wrap (fst (periodic_length kw)) (vx v' - vx w') = Fin b ->
  (a * a = b * b)%R ->
  vy v' - vy w' = vy v - vy w ->
  vz v' - vz w' = vz v - vz w ->
  blob_blob_term kw v' w' = blob_blob_term kw v w.
Proof.
  intros Ha Hb Hsq Hy Hz. unfold blob_blob_term.
  rewrite Ha, Hb, Hy, Hz. cbn [dmul]. now rewrite Hsq.
Qed.

Lemma pair_term_shift_left (kw : kwargs) (lx : R) (ly : double) (p q : R * R * R) :
  periodic_length kw = (Fin lx, ly) ->
  (0 < lx)%R ->
  (Rabs ((fst (fst p) - fst (fst q)) / lx) + 3 / 2 < 2147483648)%R ->
  blob_blob_term kw (fin3 (shift_x p lx)) (fin3 q) = blob_blob_term kw (fin3 p) (fin3 q).
Proof.
  intros Hkw Hl Hr.
  destruct (range_after_shift _ _ Hl Hr) as (R0 & Rp & Rm).
  destruct (wrap_period_shift_square _ _ Hl R0 Rp) as (a & b & Ha & Hb & Hsq).
  apply blob_blob_term_same_squares with (a := a) (b := b); try reflexivity; try assumption.
  - rewrite Hkw. cbn [fst]. rewrite <- Ha. unfold fin3. cbn. f_equal; try (apply Fin_eq; lra).
  - rewrite Hkw. cbn [fst]. rewrite <- Hb. unfold fin3, shift_x. cbn.
    f_equal; try (apply Fin_eq; lra).
Qed.

Lemma pair_term_shift_right (kw : kwargs) (lx : R) (ly : double) (p q : R * R * R) :
  periodic_length kw = (Fin lx, ly) ->
  (0 < lx)%R ->
  (Rabs ((fst (fst p) - fst (fst q)) / lx) + 3 / 2 < 2147483648)%R ->
  blob_blob_term kw (fin3 p) (fin3 (shift_x q lx)) = blob_blob_term kw (fin3 p) (fin3 q).
Proof.
  intros Hkw Hl Hr.
  destruct (range_after_shift _ _ Hl Hr) as (R0 & Rp & Rm).
  assert (Rabs ((fst (fst p) - fst (fst q) - lx + lx) / lx) + 1 / 2 < 2147483648)%R as R0'
    by (replace (fst (fst p) - fst (fst q) - lx + lx)%R
          with (fst (fst p) - fst (fst q))%R by lra; exact R0).
  destruct (wrap_period_shift_square _ _ Hl Rm R0') as (a & b & Ha & Hb & Hsq).
  apply blob_blob_term_same_squares with (a := b) (b := a); try reflexivity;
    try assumption; try (symmetry; assumption).
  - rewrite Hkw. cbn [fst]. rewrite <- Hb. unfold fin3. cbn. f_equal; try (apply Fin_eq; lra).
  - rewrite Hkw. cbn [fst]. rewrite <- Ha. unfold fin3, shift_x. cbn.
    f_equal; try (apply Fin_eq; lra).
Qed.

(** X7: In exact arithmetic (the rounding of the double operations set
    aside), the blob-blob term sees a blob and its periodic images alike:
    moving either blob of a pair by one period along x leaves the term
    unchanged, as long as the quotients of the minimum-image update stay in
    the range of [int]. *)
Theorem pair_term_period_shift (kw : kwargs) (lx : R) (ly : double) (p q : R * R * R) :
  periodic_length kw = (Fin lx, ly) ->
  (0 < lx)%R ->
  (Rabs ((fst (fst p) - fst (fst q)) / lx) + 3 / 2 < 2147483648)%R ->
  blob_blob_term kw (fin3 (shift_x p lx)) (fin3 q) = blob_blob_term kw (fin3 p) (fin3 q)
  /\ blob_blob_term kw (fin3 p) (fin3 (shift_x q lx)) = blob_blob_term kw (fin3 p) (fin3 q).
Proof.
  intros Hkw Hl Hr. split.
  - now apply (pair_term_shift_left kw lx ly).
  - now apply (pair_term_shift_right kw lx ly).
Qed.

Lemma pair_term_period_shift_witness :
  blob_blob_term kw_periodic_x (fin3 (shift_x (0, 0, 2)%R 1)) (fin3 (1 / 4, 0, 3)%R)
  = blob_blob_term kw_periodic_x (fin3 (0, 0, 2)%R) (fin3 (1 / 4, 0, 3)%R).
Proof.
  apply (pair_term_period_shift kw_periodic_x 1 (Fin 0) (0, 0, 2)%R (1 / 4, 0, 3)%R eq_refl).
  - lra.
  - cbn [fst snd]. rewrite Rabs_left by lra. lra.
Defined.

Lemma energy_rowwise (kw : kwargs) (rv rv' : list vec3) :
  length rv' = length rv ->
  (forall i, (i < length rv)%nat ->
             above_wall kw (row rv' i) = above_wall kw (row rv i)) ->
  (forall i, (i < length rv)%nat ->
             single_term kw (row rv' i) = single_term kw (row rv i)) ->
  (forall i j, (i < j < length rv)%nat ->
               pair_energy kw rv' (i, j) = pair_energy kw rv (i, j)) ->
  compute_total_energy rv' kw = compute_total_energy rv kw.
Proof.
  intros Hlen Hab Hs Hp. rewrite !total_energy_decomposition. f_equal. f_equal.
  - rewrite <- (map_row_seq rv), <- (map_row_seq rv'), !map_map, Hlen.
    apply dsum_map_ext_in. intros i Hi. apply in_seq in Hi. apply Hs. lia.
  - assert (counted_pairs kw rv' = counted_pairs kw rv) as ->.
    { unfold counted_pairs. rewrite Hlen. apply filter_ext_in. intros [i j] Hin.
      apply in_unordered_pairs in Hin. cbn [fst]. apply Hab. lia. }
    apply dsum_map_ext_in. intros [i j] Hin.
    unfold counted_pairs in Hin. apply filter_In in Hin as [Hin _].
    apply in_unordered_pairs in Hin. now apply Hp.
Qed.

Lemma nth_update {A : Type} (l : list A) (k i : nat) (a d : A) :
  (k < length l)%nat ->
  nth i (update l k a) d = if (i =? k)%nat then a else nth i l d.
Proof.
  revert k i; induction l as [|b l IH]; intros k i Hk; cbn [length] in Hk; [lia|].
  destruct k as [|k], i as [|i]; cbn [update nth Nat.eqb]; try reflexivity.
  apply IH. lia.
Qed.

(** X8: In exact arithmetic (the rounding of the double operations set
    aside), moving one blob by one period along x leaves the energy of the
    whole array unchanged, for finite coordinates whose minimum-image
    quotients with the moved blob stay in the range of [int]. *)
Theorem energy_period_shift (kw : kwargs) (lx : R) (ly : double)
                            (pts : list (R * R * R)) (k : nat) :
  periodic_length kw = (Fin lx, ly) ->
  (0 < lx)%R ->
  (k < length pts)%nat ->
  (forall j, (j < length pts)%nat ->
             (Rabs ((fst (fst (nth k pts (0, 0, 0))) - fst (fst (nth j pts (0, 0, 0)))) / lx)
              + 3 / 2 < 2147483648))%R ->
  compute_total_energy
    (map fin3 (update pts k (shift_x (nth k pts (0, 0, 0)%R) lx))) kw
  = compute_total_energy (map fin3 pts) kw.
Proof.
  intros Hkw Hl Hk Hr.
  set (pk := nth k pts (0, 0, 0)%R) in *.
  assert (Hrow : forall i, (i < length pts)%nat ->
            row (map fin3 (update pts k (shift_x pk lx))) i
            = if (i =? k)%nat then fin3 (shift_x pk lx) else row (map fin3 pts) i).
  { intros i Hi. rewrite row_fin3 by now rewrite length_update.
    rewrite nth_update by assumption.
    destruct (i =? k)%nat; [reflexivity | now rewrite row_fin3]. }
  assert (Hpk : row (map fin3 pts) k = fin3 pk) by now apply row_fin3.
  apply energy_rowwise.
  - now rewrite !length_map, length_update.
  - rewrite length_map. intros i Hi. rewrite Hrow by assumption.
    destruct (Nat.eqb_spec i k) as [->|]; [now rewrite Hpk | reflexivity].
  - rewrite length_map. intros i Hi. rewrite Hrow by assumption.
    destruct (Nat.eqb_spec i k) as [->|]; [now rewrite Hpk | reflexivity].
  - rewrite length_map. intros i j Hij. unfold pair_energy. cbn [fst snd].
    rewrite !Hrow by lia.
    destruct (Nat.eqb_spec i k) as [->|Hik], (Nat.eqb_spec j k) as [->|Hjk]; try lia.
    + rewrite Hpk, (row_fin3 pts j) by lia.
      apply (pair_term_shift_left kw lx ly); try assumption. apply Hr. lia.
    + rewrite Hpk, (row_fin3 pts i) by lia.
      apply (pair_term_shift_right kw lx ly); try assumption.
      specialize (Hr i ltac:(lia)). fold pk in Hr.
      rewrite <- Rabs_Ropp.
      replace (- ((fst (fst (nth i pts (0, 0, 0))) - fst (fst pk)) / lx))%R
        with ((fst (fst pk) - fst (fst (nth i pts (0, 0, 0)))) / lx)%R by (field; lra).
      exact Hr.
    + reflexivity.
Qed.

Lemma energy_period_shift_witness :
  compute_total_energy
    (map fin3 (update [(0, 0, 2); (1 / 4, 0, 3)]%R 0 (shift_x (0, 0, 2)%R 1))) kw_periodic_x
  = compute_total_energy (map fin3 [(0, 0, 2); (1 / 4, 0, 3)]%R) kw_periodic_x.
Proof.
  apply (energy_period_shift kw_periodic_x 1 (Fin 0) [(0, 0, 2); (1 / 4, 0, 3)]%R 0 eq_refl).
  - lra.
  - cbn. lia.
  - intros j Hj. cbn in Hj.
    assert (j = 0 \/ j = 1)%nat as [-> | ->] by lia; cbn [nth fst snd].
    + pose proof (Rabs_le ((0 - 0) / 1) 1 ltac:(lra)). lra.
    + pose proof (Rabs_le ((0 - 1 / 4) / 1) 1 ltac:(lra)). lra.
Defined.

(** ** The blob-blob term and the wall penalty *)

(** X9: The blob-blob potential is repulsive: for a positive strength and a
    positive screening length, the term of a pair of distinct blobs never
    lowers the energy accumulated so far (which is finite or plus infinity),
    whatever the finite differences of their coordinates are; for two blobs
    at the same place the result is plus infinity. *)
Theorem blob_blob_potential_repulsive
    (u : double) (eps dl rx ry rz : R) (blob_radius : double) (i j : nat) :
  (0 < eps)%R -> (0 < dl)%R -> i <> j -> finite_or_pinf u = true ->
  (u <=? blob_blob_potential u (Fin rx) (Fin ry) (Fin rz) i j (Fin dl) (Fin eps) blob_radius)
  = true
  /\ (rx = 0%R -> ry = 0%R -> rz = 0%R ->
      blob_blob_potential u (Fin rx) (Fin ry) (Fin rz) i j (Fin dl) (Fin eps) blob_radius
      = PInf).
Proof.
  intros He Hd Hij Hu.
  unfold blob_blob_potential. apply Nat.eqb_neq in Hij. rewrite Hij.
  cbn [negb dmul dadd dsqrt].
  rewrite Rltb_false by apply sum_squares_not_neg.
  cbn [dneg ddiv]. rewrite (Reqb0_false dl) by lra. cbn [dexp dmul ddiv].
  set (r := sqrt (rx * rx + ry * ry + rz * rz)).
  assert (0 <= r)%R as Hr by apply sqrt_pos.
  pose proof (exp_pos (- r / dl)) as Hexp.
  assert (0 < eps * exp (- r / dl))%R as Hnum by (apply Rmult_lt_0_compat; assumption).
  split.
  - destruct (Reqb0_spec r) as [Hz|Hz].
    + unfold inf_of_sign. rewrite Rltb_true by assumption.
      destruct u; try discriminate; reflexivity.
    + assert (0 < eps * exp (- r / dl) / r)%R
        by (apply Rdiv_lt_0_compat; lra).
      destruct u as [a| | |]; try discriminate; [|reflexivity].
      cbn [dadd dle]. rewrite Rltb_false by lra. reflexivity.
  - intros -> -> ->. subst r.
    replace (0 * 0 + 0 * 0 + 0 * 0)%R with 0%R by lra. rewrite sqrt_0.
    rewrite Reqb0_true by reflexivity.
    unfold inf_of_sign. rewrite Rltb_true.
    + destruct u; try discriminate; reflexivity.
    + replace (- 0 / dl)%R with 0%R by (unfold Rdiv; lra). rewrite exp_0. lra.
Qed.

Lemma blob_blob_potential_repulsive_witness :
  (Fin 3 <=? blob_blob_potential (Fin 3) (Fin 1) (Fin 0) (Fin 0) 0 1 (Fin 1) (Fin 1) (Fin 1))
  = true.
Proof.
  apply (proj1 (blob_blob_potential_repulsive (Fin 3) 1 1 1 0 0 (Fin 1) 0 1
                  ltac:(lra) ltac:(lra) ltac:(lia) eq_refl)).
Defined.

Lemma energy_single_blob (kw : kwargs) (v : vec3) :
  compute_total_energy [v] kw = Some (single_term kw v).
Proof.
  rewrite total_energy_decomposition. unfold counted_pairs, unordered_pairs.
  cbn [length seq flat_map map Nat.sub app filter dsum].
  now rewrite !dadd_0_r.
Qed.

(** X10: Behind the wall the energy of a blob does not decrease with the depth:
    for finite heights [z1 <= z2 <= blob_radius] the energy of the blob at
    [z1] is at least the energy of the blob at [z2], whatever their x and y
    are, and the energy is never below [1e5]. *)
Theorem wall_penalty_grows_with_depth (kw : kwargs) (x y x' y' : double) (z1 z2 a : R) :
  kw_blob_radius kw = Fin a ->
  (z1 <= z2 <= a)%R ->
  exists u1 u2 : double,
    compute_total_energy [(x, y, Fin z1)] kw = Some u1
    /\ compute_total_energy [(x', y', Fin z2)] kw = Some u2
    /\ (Fin 100000 <=? u2) = true
    /\ (u2 <=? u1) = true.
Proof.
  intros Ha Hz. rewrite !energy_single_blob.
  unfold single_term, above_wall, wall_penalty, dgt. rewrite Ha. cbn [vz snd dlt].
  rewrite !Rltb_false by lra. cbn.
  do 2 eexists. split; [reflexivity|]. split; [reflexivity|].
  cbn [dle]. rewrite !Rltb_false by lra. split; reflexivity.
Qed.

Lemma wall_penalty_grows_with_depth_witness :
  exists u1 u2 : double,
    compute_total_energy [(Fin 0, Fin 0, Fin 0)] kw_unit = Some u1
    /\ compute_total_energy [(Fin 5, Fin 5, Fin 1)] kw_unit = Some u2
    /\ (Fin 100000 <=? u2) = true
    /\ (u2 <=? u1) = true.
Proof.
  apply (wall_penalty_grows_with_depth kw_unit _ _ _ _ 0 1 1 eq_refl). lra.
Defined.

(** ** The order of the blobs *)

(** X12: In exact arithmetic (the rounding of the double operations set
    aside, so that the sum does not depend on the order of its terms), when
    every blob is above the wall and the minimum-image conversions do not
    saturate, the energy does not depend on the order of the blobs in the
    array: every permutation of the rows gives the same energy. *)
Theorem energy_order_irrelevant (kw : kwargs) (r_vectors r_vectors' : list vec3) :
  Permutation r_vectors r_vectors' ->
  (forall v, In v r_vectors -> above_wall kw v = true) ->
  (forall v w, In v r_vectors -> In w r_vectors -> pair_wrap_exact kw v w) ->
  compute_total_energy r_vectors' kw = compute_total_energy r_vectors kw.
Proof.
  intros Hp Hab Hex.
  rewrite !total_energy_all_above; try assumption.
  - f_equal. f_equal.
    + symmetry. apply dsum_Permutation. now apply Permutation_map.
    + symmetry. apply pair_sum_Permutation; [assumption|].
      intros v w Hv Hw. apply blob_blob_term_sym. now apply Hex.
  - intros v Hv. apply Hab. eapply Permutation_in; [apply Permutation_sym|]; eassumption.
Qed.

Lemma energy_order_irrelevant_witness :
  compute_total_energy [blob_aside; blob_near; blob_above] kw_unit
  = compute_total_energy [blob_above; blob_aside; blob_near] kw_unit.
Proof.
  apply energy_order_irrelevant.
  - change [blob_above; blob_aside; blob_near] with ([blob_above] ++ [blob_aside; blob_near]).
    change [blob_aside; blob_near; blob_above] with ([blob_aside; blob_near] ++ [blob_above]).
    apply Permutation_app_comm.
  - intros v [<-|[<-|[<-|[]]]]; cbn; apply Rltb_true; lra.
  - intros v w [<-|[<-|[<-|[]]]] [<-|[<-|[<-|[]]]]; split; cbn; lra.
Defined.

(** * Further properties of the Markov chain loop *)

Section RunProperties.

Context {ops : PoseOps}.

Hypothesis r_vectors_of_pose_length :
  forall reference loc ori,
    length (r_vectors_of_pose reference loc ori) = length reference.

Variable kw : kwargs.
Variable kT : double.
Variable max_angle_shift : double.

Lemma current_blobs_ext (bs bs' : list Body) :
  map current_pose bs = map current_pose bs' -> current_blobs bs = current_blobs bs'.
Proof.
  unfold current_blobs. revert bs'. induction bs as [|b bs IH]; intros [|b' bs'] H;
    try discriminate; [reflexivity|].
  cbn [map] in H. unfold current_pose at 1 3 in H. injection H as Hr Hl Ho Hbs.
  cbn [flat_map]. rewrite (IH bs' Hbs). f_equal.
  unfold get_r_vectors_current, get_r_vectors. now rewrite Hr, Hl, Ho.
Qed.

Lemma current_pose_propose (rnd : draws) (st : chain) :
  map current_pose (fst (propose max_angle_shift rnd st)) = map current_pose (bodies st).
Proof.
  unfold propose. rewrite disturb_bodies_poses.
  generalize 0%nat. induction (bodies st) as [|b bs IH]; intros i; [reflexivity|].
  cbn [length seq combine map]. now rewrite IH.
Qed.

Lemma total_blobs_ext (bs bs' : list Body) :
  map current_pose bs = map current_pose bs' -> total_blobs bs = total_blobs bs'.
Proof.
  unfold total_blobs. revert bs'. induction bs as [|b bs IH]; intros [|b' bs'] H;
    try discriminate; [reflexivity|].
  cbn [map] in H. unfold current_pose at 1 3 in H. injection H as Hr Hl Ho Hbs.
  change (Nblobs b + list_sum (map Nblobs bs) = Nblobs b' + list_sum (map Nblobs bs'))%nat.
  rewrite (IH bs' Hbs). unfold Nblobs. now rewrite Hr.
Qed.

Lemma mcmc_step_consistent (rnd : draws) (st : chain) :
  energy_consistent kw st ->
  exists st', mcmc_step kw kT max_angle_shift rnd st = Some st' /\ energy_consistent kw st'.
Proof.
  intros [Hen Hlen].
  destruct (mcmc_step_runs kw kT max_angle_shift rnd st) as (e & He & Hstep).
  cbn zeta in Hstep. eexists. split; [exact Hstep|].
  pose proof (propose_buffer r_vectors_of_pose_length max_angle_shift rnd st Hlen) as Hbuf.
  pose proof (current_pose_propose rnd st) as Hpose.
  rewrite Hbuf in He.
  destruct (accepts kT rnd e (current_state_energy st)); unfold energy_consistent;
    cbn [accepted_state rejected_state bodies sample_r_vectors current_state_energy].
  - rewrite current_blobs_commit, total_blobs_commit. split; [exact He|].
    rewrite Hbuf. apply (length_proposed_blobs r_vectors_of_pose_length).
  - rewrite (current_blobs_ext _ _ Hpose). split; [exact Hen|].
    rewrite Hbuf. apply (length_proposed_blobs r_vectors_of_pose_length).
Qed.

(** X13: The energy stays in step with the poses: if the current energy is the
    energy of the blobs of the current poses when a run starts, every run of
    iterations completes and ends in a state where this holds again; the
    state in which the loop is entered is such a state. *)
Theorem current_energy_invariant (rnds : list draws) (st : chain) :
  energy_consistent kw st ->
  (exists st',
      run_chain kw kT max_angle_shift rnds st = Some st' /\ energy_consistent kw st')
  /\ (forall bodies0 : list Body,
         exists st0, initial_chain kw bodies0 = Some st0 /\ energy_consistent kw st0).
Proof.
  intros Hc. split.
  - revert st Hc. induction rnds as [|rnd rest IH]; intros st Hc.
    + exists st. split; [reflexivity | exact Hc].
    + destruct (mcmc_step_consistent rnd st Hc) as (st1 & Hstep & Hc1).
      cbn [run_chain]. rewrite Hstep. now apply IH.
  - intros bodies0. unfold initial_chain.
    rewrite (get_blobs_r_vectors_current r_vectors_of_pose_length).
    rewrite compute_total_energy_slots. eexists. split; [reflexivity|].
    split; cbn [bodies current_state_energy sample_r_vectors].
    + apply compute_total_energy_slots.
    + unfold current_blobs. induction bodies0 as [|b bs IH]; [reflexivity|].
      cbn [flat_map]. rewrite length_app, IH. unfold get_r_vectors_current.
      rewrite (Nblobs_get_r_vectors r_vectors_of_pose_length). reflexivity.
Qed.

Lemma mcmc_step_cases (rnd : draws) (st : chain) :
  exists st',
    mcmc_step kw kT max_angle_shift rnd st = Some st'
    /\ map reference_configuration (bodies st') = map reference_configuration (bodies st)
    /\ ((accepted_moves st' = accepted_moves st
         /\ map current_pose (bodies st') = map current_pose (bodies st)
         /\ current_state_energy st' = current_state_energy st)
        \/ (accepted_moves st' = S (accepted_moves st)
            /\ accepts kT rnd (current_state_energy st') (current_state_energy st) = true)).
Proof.
  destruct (mcmc_step_runs kw kT max_angle_shift rnd st) as (e & He & Hstep).
  cbn zeta in Hstep. eexists. split; [exact Hstep|].
  destruct (disturb_bodies_frame max_angle_shift rnd (bodies st) 0 (sample_r_vectors st) 0)
    as (_ & _ & Href).
  fold (propose max_angle_shift rnd st) in Href.
  destruct (accepts kT rnd e (current_state_energy st)) eqn:Hacc;
    cbn [accepted_state rejected_state bodies accepted_moves current_state_energy].
  - split; [now rewrite map_map|]. right. split; [lia | exact Hacc].
  - split; [exact Href|]. left. split; [reflexivity|].
    split; [apply current_pose_propose | reflexivity].
Qed.

Lemma mcmc_step_counter (rnd : draws) (st : chain) :
  exists (sample_state_energy : double) (st' : chain),
    compute_total_energy (snd (propose max_angle_shift rnd st)) kw = Some sample_state_energy
    /\ mcmc_step kw kT max_angle_shift rnd st = Some st'
    /\ accepted_moves st'
       = (accepted_moves st
          + (if accepts kT rnd sample_state_energy (current_state_energy st) then 1 else 0))%nat.
Proof.
  destruct (mcmc_step_runs kw kT max_angle_shift rnd st) as (e & He & Hstep).
  cbn zeta in Hstep. exists e. eexists. split; [exact He|]. split; [exact Hstep|].
  destruct (accepts kT rnd e (current_state_energy st));
    cbn [accepted_state rejected_state accepted_moves]; lia.
Qed.

(** X14: The counter counts the accepted moves.  An iteration adds one to it
    when its proposal passes the acceptance test and leaves it as it was when
    the proposal is rejected; so after a run the counter has grown by the
    number of iterations whose proposal passed the test, which is at most the
    number of iterations.  The bodies keep their number and their reference
    configurations, and a run that leaves the counter as it was has left
    every current pose and the current energy as they were. *)
Theorem accepted_moves_count (rnds : list draws) (st : chain) :
  (forall rnd : draws,
      exists (sample_state_energy : double) (st1 : chain),
        compute_total_energy (snd (propose max_angle_shift rnd st)) kw
        = Some sample_state_energy
        /\ mcmc_step kw kT max_angle_shift rnd st = Some st1
        /\ accepted_moves st1
           = (accepted_moves st
              + (if accepts kT rnd sample_state_energy (current_state_energy st)
                 then 1 else 0))%nat)
  /\ exists st',
      run_chain kw kT max_angle_shift rnds st = Some st'
      /\ length (run_decisions kw kT max_angle_shift rnds st) = length rnds
      /\ accepted_moves st'
         = (accepted_moves st
            + count_occ bool_dec (run_decisions kw kT max_angle_shift rnds st) true)%nat
      /\ (accepted_moves st <= accepted_moves st' <= accepted_moves st + length rnds)%nat
      /\ map reference_configuration (bodies st') = map reference_configuration (bodies st)
      /\ (accepted_moves st' = accepted_moves st ->
          map current_pose (bodies st') = map current_pose (bodies st)
          /\ current_state_energy st' = current_state_energy st).
Proof.
  split; [intros rnd; apply mcmc_step_counter|].
  revert st. induction rnds as [|rnd rest IH]; intros st.
  - exists st. cbn [run_chain run_decisions length count_occ]. repeat split; lia.
  - destruct (mcmc_step_counter rnd st) as (e & st1 & He & Hstep & Hcnt).
    destruct (mcmc_step_cases rnd st) as (st1' & Hstep' & Href & Hcase).
    rewrite Hstep in Hstep'. injection Hstep' as <-.
    destruct (IH st1) as (st' & Hrun & Hlen & Hcount & Hbound & Href' & Hsame).
    exists st'. cbn [run_chain run_decisions length]. rewrite He, Hstep.
    cbn [length count_occ].
    split; [exact Hrun|]. split; [now rewrite Hlen|].
    destruct (accepts kT rnd e (current_state_energy st)) eqn:Hacc.
    + destruct (bool_dec true true) as [_|Hne]; [|now destruct Hne].
      split; [lia|]. split; [lia|]. split; [congruence|]. intros Heq. lia.
    + destruct (bool_dec false true) as [Hft|_]; [discriminate|].
      split; [lia|]. split; [lia|]. split; [congruence|].
      intros Heq. destruct Hcase as [(_ & Hpose & Hen) | (Hs & _)]; [|lia].
      destruct Hsame as [Hp Hc]; [lia|]. split; congruence.
Qed.

(** X15: A NaN energy is never accepted and never left: a proposal whose energy is
    a NaN is rejected whatever the draw and [kT] are, and from a state whose
    current energy is a NaN every proposal is rejected, so a run of any length
    leaves the poses where they were. *)
Theorem nan_energy_freezes_chain :
  (forall (rnd : draws) (e : double),
      accepts kT rnd NaN e = false /\ accepts kT rnd e NaN = false)
  /\ (forall (rnds : list draws) (st : chain),
         current_state_energy st = NaN ->
         exists st',
           run_chain kw kT max_angle_shift rnds st = Some st'
           /\ map current_pose (bodies st') = map current_pose (bodies st)
           /\ current_state_energy st' = NaN
           /\ accepted_moves st' = accepted_moves st).
Proof.
  assert (Hnan : forall (rnd : draws) (e : double),
             accepts kT rnd NaN e = false /\ accepts kT rnd e NaN = false).
  { intros rnd e. unfold accepts. split.
    - cbn. now destruct (uniform01 rnd).
    - destruct e; cbn; now destruct (uniform01 rnd). }
  split; [exact Hnan|].
  induction rnds as [|rnd rest IH]; intros st Hcur.
  - exists st. cbn [run_chain]. auto.
  - destruct (mcmc_step_cases rnd st) as (st1 & Hstep & _ & Hcase).
    destruct Hcase as [(Hacc & Hpose & Hen) | (_ & Hacc)].
    + destruct (IH st1 ltac:(congruence)) as (st' & Hrun & Hp & He & Hm).
      exists st'. cbn [run_chain]. rewrite Hstep. repeat split; congruence.
    + rewrite Hcur in Hacc. rewrite (proj2 (Hnan rnd _)) in Hacc. discriminate.
Qed.

(** X16: Scratch data does not leak from one iteration into the next: two states
    that agree on the current poses, the current energy and the counter, and
    whose buffers have one row per blob, give the same next state, whatever
    their proposed poses and the contents of their buffers are. *)
Theorem step_ignores_scratch (rnd : draws) (st1 st2 : chain) :
  map current_pose (bodies st1) = map current_pose (bodies st2) ->
  current_state_energy st1 = current_state_energy st2 ->
  accepted_moves st1 = accepted_moves st2 ->
  length (sample_r_vectors st1) = total_blobs (bodies st1) ->
  length (sample_r_vectors st2) = total_blobs (bodies st2) ->
  mcmc_step kw kT max_angle_shift rnd st1 = mcmc_step kw kT max_angle_shift rnd st2.
Proof.
  intros Hpose Hen Hacc Hl1 Hl2.
  assert (Hb : fst (propose max_angle_shift rnd st1) = fst (propose max_angle_shift rnd st2)).
  { unfold propose. rewrite !disturb_bodies_poses.
    generalize 0%nat. revert Hpose. generalize (bodies st1) (bodies st2).
    induction l as [|b bs IH]; intros [|b' bs'] H i; try discriminate; [reflexivity|].
    cbn [map] in H. unfold current_pose at 1 3 in H. injection H as Hr Hl Ho Hbs.
    cbn [length seq combine map]. rewrite (IH bs' Hbs). now rewrite Hr, Hl, Ho. }
  pose proof (propose_buffer r_vectors_of_pose_length max_angle_shift rnd st1 Hl1) as B1.
  pose proof (propose_buffer r_vectors_of_pose_length max_angle_shift rnd st2 Hl2) as B2.
  unfold mcmc_step.
  destruct (propose max_angle_shift rnd st1) as [bs1 buf1].
  destruct (propose max_angle_shift rnd st2) as [bs2 buf2].
  cbn [fst snd] in *. subst bs2 buf1 buf2. now rewrite Hen, Hacc.
Qed.

End RunProperties.

(** ** Worked runs of one sphere *)

Lemma chain_low_consistent : energy_consistent kw_gravity chain_low.
Proof.
  split; [|reflexivity].
  unfold chain_low, sphere_chain, sphere, current_blobs, get_r_vectors_current, get_r_vectors.
  cbn [bodies current_state_energy flat_map reference_configuration location orientation
       r_vectors_of_pose rigid_pose rigid_r_vectors map app].
  rewrite rotate_identity_origin. unfold vadd. cbn.
  rewrite energy_single_above by lra. f_equal. apply Fin_eq. lra.
Qed.

Lemma step_low_rejected :
  mcmc_step kw_gravity (Fin 1) (Fin 1) (draws_down (Fin (1 / 2))) chain_low
  = Some (rejected_state chain_low
            (fst (propose (Fin 1) (draws_down (Fin (1 / 2))) chain_low))
            (snd (propose (Fin 1) (draws_down (Fin (1 / 2))) chain_low))).
Proof.
  destruct (mcmc_step_runs kw_gravity (Fin 1) (Fin 1) (draws_down (Fin (1 / 2))) chain_low)
    as (e & He & Hstep).
  rewrite proposal_low in He. injection He as <-. cbn zeta in Hstep.
  change (current_state_energy chain_low) with (Fin (3 / 2)) in Hstep.
  now rewrite rejected_low in Hstep.
Qed.

Lemma current_energy_invariant_witness :
  exists st' : chain,
    run_chain kw_gravity (Fin 1) (Fin 1) [draws_down (Fin (1 / 2))] chain_low = Some st'
    /\ energy_consistent kw_gravity st'.
Proof.
  exact (proj1 (@current_energy_invariant rigid_pose rigid_r_vectors_length kw_gravity
                  (Fin 1) (Fin 1) [draws_down (Fin (1 / 2))] chain_low
                  chain_low_consistent)).
Defined.

Lemma accepted_moves_count_witness :
  exists st' : chain,
    run_chain kw_gravity (Fin 1) (Fin 1) [draws_down (Fin (1 / 2))] chain_low = Some st'
    /\ accepted_moves st'
       = (accepted_moves chain_low
          + count_occ bool_dec
              (run_decisions kw_gravity (Fin 1) (Fin 1) [draws_down (Fin (1 / 2))] chain_low)
              true)%nat.
Proof.
  destruct (proj2 (accepted_moves_count kw_gravity (Fin 1) (Fin 1)
                     [draws_down (Fin (1 / 2))] chain_low))
    as (st' & Hrun & _ & Hcount & _).
  exists st'. split; [exact Hrun | exact Hcount].
Defined.

Lemma nan_energy_freezes_chain_witness :
  exists st' : chain,
    run_chain kw_gravity (Fin 1) (Fin 1)
      [draws_down (Fin 0); draws_down (Fin (1 / 2))] chain_nan_height = Some st'
    /\ map current_pose (bodies st') = map current_pose (bodies chain_nan_height)
    /\ current_state_energy st' = NaN
    /\ accepted_moves st' = accepted_moves chain_nan_height.
Proof.
  exact (proj2 (nan_energy_freezes_chain kw_gravity (Fin 1) (Fin 1))
           [draws_down (Fin 0); draws_down (Fin (1 / 2))] chain_nan_height eq_refl).
Defined.

Lemma step_ignores_scratch_witness :
  mcmc_step kw_gravity (Fin 1) (Fin 1) (draws_down (Fin (1 / 2))) chain_low
  = mcmc_step kw_gravity (Fin 1) (Fin 1) (draws_down (Fin (1 / 2))) chain_low_scratch.
Proof.
  apply (@step_ignores_scratch rigid_pose rigid_r_vectors_length); reflexivity.
Defined.

(** ** Infinite energies *)

(** X17: An infinite energy is a barrier: for a positive finite [kT] and a draw
    that is not negative, a proposal of energy plus infinity from a state of
    finite energy is rejected, so the iteration keeps the state; a proposal of
    finite energy from a state of energy plus infinity is accepted for every
    finite draw. *)
Theorem infinite_energy_barrier (ops : PoseOps) (kw : kwargs) (max_angle_shift : double)
                                (rnd : draws) (st : chain) (t c u : R) :
  (0 < t)%R -> (0 <= u)%R -> uniform01 rnd = Fin u ->
  (accepts (Fin t) rnd PInf (Fin c) = false /\ accepts (Fin t) rnd (Fin c) PInf = true)
  /\ (current_state_energy st = Fin c ->
      compute_total_energy (snd (propose max_angle_shift rnd st)) kw = Some PInf ->
      mcmc_step kw (Fin t) max_angle_shift rnd st
      = Some (rejected_state st (fst (propose max_angle_shift rnd st))
                (snd (propose max_angle_shift rnd st)))).
Proof.
  intros Ht Hu Hrnd.
  assert (Hrej : accepts (Fin t) rnd PInf (Fin c) = false).
  { unfold accepts. rewrite Hrnd. cbn. rewrite (Rltb_false t 0) by lra. cbn.
    apply Rltb_false. lra. }
  split.
  - split; [exact Hrej|]. unfold accepts. rewrite Hrnd. cbn.
    rewrite (Rltb_false t 0) by lra. reflexivity.
  - intros Hcur He. unfold mcmc_step.
    destruct (propose max_angle_shift rnd st) as [bs buf]. cbn [fst snd] in *.
    rewrite He, Hcur, Hrej. unfold rejected_state. now rewrite Hcur.
Qed.

Lemma infinite_energy_barrier_witness :
  accepts (Fin 1) (draws_down (Fin (1 / 2))) PInf (Fin (3 / 2)) = false
  /\ accepts (Fin 1) (draws_down (Fin (1 / 2))) (Fin (3 / 2)) PInf = true.
Proof.
  apply (infinite_energy_barrier rigid_pose kw_gravity (Fin 1) (draws_down (Fin (1 / 2)))
           chain_low 1 (3 / 2) (1 / 2)); [lra | lra | reflexivity].
Defined.

(** ** The layout of the blob array *)

Section BlobLayout.

Context {ops : PoseOps}.

Hypothesis r_vectors_of_pose_length :
  forall reference loc ori,
    length (r_vectors_of_pose reference loc ori) = length reference.

Lemma length_current_blobs (bs : list Body) :
  length (current_blobs bs) = total_blobs bs.
Proof.
  unfold current_blobs. induction bs as [|b bs IH]; [reflexivity|].
  cbn [flat_map]. rewrite length_app, IH. unfold get_r_vectors_current.
  rewrite (Nblobs_get_r_vectors r_vectors_of_pose_length). reflexivity.
Qed.

Lemma current_blobs_app (bs1 bs2 : list Body) :
  current_blobs (bs1 ++ bs2) = current_blobs bs1 ++ current_blobs bs2.
Proof. unfold current_blobs. apply flat_map_app. Qed.

(** X18: [get_blobs_r_vectors] lays the blobs out body after body: the array is the
    concatenation of the blobs of the bodies in their order, blob [i] of a
    body is [i] rows after the blobs of the bodies before it, and rows beyond
    the total number of blobs are left as [np.empty] made them. *)
Theorem get_blobs_r_vectors_layout (bs : list Body) (extra : nat) :
  get_blobs_r_vectors bs (total_blobs bs + extra) = current_blobs bs ++ np_empty extra
  /\ length (get_blobs_r_vectors bs (total_blobs bs)) = total_blobs bs
  /\ (forall (pre post : list Body) (b : Body) (i : nat) (d : vec3),
         bs = pre ++ b :: post ->
         (i < Nblobs b)%nat ->
         nth (total_blobs pre + i) (get_blobs_r_vectors bs (total_blobs bs)) d
         = nth i (get_r_vectors b (location b) (orientation b)) d).
Proof.
  assert (Hfill : forall n, get_blobs_r_vectors bs (total_blobs bs + n)
                            = current_blobs bs ++ np_empty n).
  { intros n. unfold get_blobs_r_vectors.
    pose proof (fill_r_vectors_buffer r_vectors_of_pose_length bs []
                  (np_empty (total_blobs bs)) (np_empty n)) as H.
    cbn [app length] in H. unfold np_empty in *. rewrite repeat_app.
    apply H. apply repeat_length. }
  split; [apply Hfill|].
  assert (H0 : get_blobs_r_vectors bs (total_blobs bs) = current_blobs bs).
  { specialize (Hfill 0%nat). rewrite Nat.add_0_r in Hfill. rewrite Hfill.
    unfold np_empty. cbn [repeat]. apply app_nil_r. }
  split.
  - rewrite H0. apply length_current_blobs.
  - intros pre post b i d Hbs Hi. rewrite H0, Hbs, current_blobs_app.
    rewrite app_nth2 by (rewrite length_current_blobs; lia).
    rewrite length_current_blobs.
    replace (total_blobs pre + i - total_blobs pre)%nat with i by lia.
    unfold current_blobs. cbn [flat_map].
    rewrite app_nth1; [reflexivity|].
    unfold get_r_vectors_current.
    rewrite (Nblobs_get_r_vectors r_vectors_of_pose_length). exact Hi.
Qed.

End BlobLayout.

Lemma get_blobs_r_vectors_layout_witness :
  nth (total_blobs [sphere (Fin 0, Fin 0, Fin 2)] + 0)
      (get_blobs_r_vectors [sphere (Fin 0, Fin 0, Fin 2); sphere (Fin 1, Fin 1, Fin 3)]
         (total_blobs [sphere (Fin 0, Fin 0, Fin 2); sphere (Fin 1, Fin 1, Fin 3)]))
      (NaN, NaN, NaN)
  = nth 0 (get_r_vectors (sphere (Fin 1, Fin 1, Fin 3)) (Fin 1, Fin 1, Fin 3) identity_quat)
        (NaN, NaN, NaN).
Proof.
  apply (proj2 (proj2 (@get_blobs_r_vectors_layout rigid_pose rigid_r_vectors_length
                         [sphere (Fin 0, Fin 0, Fin 2); sphere (Fin 1, Fin 1, Fin 3)] 0))
           [sphere (Fin 0, Fin 0, Fin 2)] [] (sphere (Fin 1, Fin 1, Fin 3)) 0%nat).
  - reflexivity.
  - cbn. lia.
Defined.

(** ** The largest body length *)

Lemma max_body_length_step (ls : list R) (m : R) :
  fold_left (fun max_body_length body_length =>
               if body_length >? max_body_length then body_length else max_body_length)
            (map Fin ls) (Fin m)
  = Fin (fold_left Rmax ls m).
Proof.
  revert m. induction ls as [|l ls IH]; intros m; [reflexivity|].
  cbn [map fold_left]. change (Fin l >? Fin m) with (Rltb m l).
  destruct (Rltb_spec m l) as [H|H]; rewrite IH; f_equal; f_equal.
  - rewrite Rmax_right; lra.
  - rewrite Rmax_left; lra.
Qed.

Lemma fold_Rmax_bounds (ls : list R) (m : R) :
  (m <= fold_left Rmax ls m)%R
  /\ (forall l, In l ls -> l <= fold_left Rmax ls m)%R
  /\ (fold_left Rmax ls m = m \/ In (fold_left Rmax ls m) ls).
Proof.
  revert m. induction ls as [|l ls IH]; intros m; cbn [fold_left].
  - split; [lra|]. split; [intros l []|now left].
  - destruct (IH (Rmax m l)) as (H1 & H2 & H3).
    pose proof (Rmax_l m l). pose proof (Rmax_r m l).
    split; [lra|]. split.
    + intros l' [<-|Hin]; [lra | now apply H2].
    + destruct H3 as [H3|H3]; [|right; now right].
      rewrite H3. unfold Rmax. destruct (Rle_dec m l); [right; now left | now left].
Qed.

Lemma dgt_nan (m : double) : (NaN >? m) = false.
Proof. unfold dgt. now destruct m. Qed.

(** X19: The largest body length: for finite lengths the loop returns the largest
    of zero and the lengths, which is zero or one of the lengths; a length
    that is a NaN is passed over. *)
Theorem max_body_length_largest :
  (forall ls : list R,
      exists m : R,
        max_body_length (map Fin ls) = Fin m
        /\ (0 <= m)%R
        /\ (forall l, In l ls -> (l <= m)%R)
        /\ (m = 0%R \/ In m ls))
  /\ (forall l1 l2 : list double,
         max_body_length (l1 ++ NaN :: l2) = max_body_length (l1 ++ l2)).
Proof.
  split.
  - intros ls. exists (fold_left Rmax ls 0%R). unfold max_body_length.
    rewrite max_body_length_step.
    destruct (fold_Rmax_bounds ls 0) as (H1 & H2 & H3). auto.
  - intros l1 l2. unfold max_body_length. rewrite !fold_left_app. cbn [fold_left].
    now rewrite dgt_nan.
Qed.

(** ** The printed acceptance ratios *)

Lemma step_high_accepted :
  mcmc_step kw_gravity (Fin 1) (Fin 1) (draws_down (Fin (1 / 2))) chain_high
  = Some (accepted_state chain_high
            (fst (propose (Fin 1) (draws_down (Fin (1 / 2))) chain_high))
            (snd (propose (Fin 1) (draws_down (Fin (1 / 2))) chain_high))
            (Fin (3 / 2))).
Proof.
  destruct (mcmc_step_runs kw_gravity (Fin 1) (Fin 1) (draws_down (Fin (1 / 2))) chain_high)
    as (e & He & Hstep).
  rewrite proposal_high in He. injection He as <-. cbn zeta in Hstep. rewrite Hstep.
  replace (accepts _ _ _ _) with true; [reflexivity|].
  symmetry. apply (accepts_improving 1 (3 / 2) (5 / 2) (1 / 2)); lra.
Qed.

Lemma run_chain_accepted_bound (ops : PoseOps) (kw : kwargs) (kT max_angle_shift : double)
                               (rnds : list draws) (st st' : chain) :
  run_chain kw kT max_angle_shift rnds st = Some st' ->
  (accepted_moves st' <= accepted_moves st + length rnds)%nat.
Proof.
  revert st. induction rnds as [|rnd rest IH]; intros st Hrun; cbn [run_chain length] in *.
  - injection Hrun as <-. lia.
  - destruct (mcmc_step_cases kw kT max_angle_shift rnd st) as (st1 & Hstep & _ & Hcase).
    rewrite Hstep in Hrun. apply IH in Hrun.
    destruct Hcase as [(Hacc & _) | (Hacc & _)]; lia.
Qed.

(** X20: The ratio printed inside the loop is the number of accepted moves over the
    number of iterations made, a number between 0 and 1; the ratio printed
    after the loop divides by one more than the number of iterations, so it is
    strictly below 1 even when every move was accepted. *)
Theorem acceptance_ratios_bounded (ops : PoseOps) (kw : kwargs) (kT max_angle_shift : double)
                                  (rnds : list draws) (st st' : chain)
                                  (initial_step step : Z) :
  accepted_moves st = 0%nat ->
  (1 <= length rnds)%nat ->
  step = (initial_step + Z.of_nat (length rnds) - 1)%Z ->
  run_chain kw kT max_angle_shift rnds st = Some st' ->
  exists r r' : R,
    acceptance_ratio (accepted_moves st') step initial_step = Fin r
    /\ r = (INR (accepted_moves st') / INR (length rnds))%R
    /\ (0 <= r <= 1)%R
    /\ final_acceptance_ratio (accepted_moves st') step initial_step = Fin r'
    /\ r' = (INR (accepted_moves st') / (INR (length rnds) + 1))%R
    /\ (0 <= r' < 1)%R.
Proof.
  intros H0 Hk Hstep Hrun.
  pose proof (run_chain_accepted_bound ops kw kT max_angle_shift rnds st st' Hrun) as Hb.
  rewrite H0 in Hb. cbn [Nat.add] in Hb.
  set (acc := accepted_moves st') in *. set (k := length rnds) in *.
  assert (0 <= INR acc <= INR k)%R as Hacc by (split; [apply pos_INR | now apply le_INR]).
  assert (1 <= INR k)%R as Hk1 by (change 1%R with (INR 1); now apply le_INR).
  assert (IZR step + 1 + - IZR initial_step = INR k)%R as Hden.
  { subst step. rewrite minus_IZR, plus_IZR, <- INR_IZR_INZ. lra. }
  assert (IZR step + 2 + - IZR initial_step = INR k + 1)%R as Hden' by lra.
  unfold acceptance_ratio, final_acceptance_ratio, double_of_int.
  cbn [dadd dsub dneg ddiv]. rewrite Hden, Hden', <- INR_IZR_INZ.
  rewrite !Reqb0_false by lra.
  do 2 eexists. split; [reflexivity|]. split; [reflexivity|]. split.
  - split.
    + apply Rmult_le_pos; [lra | left; apply Rinv_0_lt_compat; lra].
    + apply Rmult_le_reg_r with (r := INR k); [lra|].
      unfold Rdiv. rewrite Rmult_assoc, Rinv_l by lra. lra.
  - split; [reflexivity|]. split; [reflexivity|]. split.
    + apply Rmult_le_pos; [lra | left; apply Rinv_0_lt_compat; lra].
    + apply Rmult_lt_reg_r with (r := (INR k + 1)%R); [lra|].
      unfold Rdiv. rewrite Rmult_assoc, Rinv_l by lra. lra.
Qed.

Lemma acceptance_ratios_bounded_witness :
  exists r r' : R,
    acceptance_ratio 1 5 5 = Fin r
    /\ r = (INR 1 / INR 1)%R
    /\ (0 <= r <= 1)%R
    /\ final_acceptance_ratio 1 5 5 = Fin r'
    /\ r' = (INR 1 / (INR 1 + 1))%R
    /\ (0 <= r' < 1)%R.
Proof.
  exact (acceptance_ratios_bounded rigid_pose kw_gravity (Fin 1) (Fin 1)
           [draws_down (Fin (1 / 2))] chain_high
           (accepted_state chain_high
              (fst (propose (Fin 1) (draws_down (Fin (1 / 2))) chain_high))
              (snd (propose (Fin 1) (draws_down (Fin (1 / 2))) chain_high))
              (Fin (3 / 2)))
           5 5 eq_refl (le_n 1) eq_refl
           (f_equal (fun o => match o with Some s => Some s | None => None end)
              step_high_accepted)).
Defined.

Lemma max_body_length_largest_witness :
  exists m : R,
    max_body_length (map Fin [2; 1]%R) = Fin m
    /\ (0 <= m)%R
    /\ (forall l, In l [2; 1]%R -> (l <= m)%R)
    /\ (m = 0%R \/ In m [2; 1]%R).
Proof.
  exact (proj1 max_body_length_largest [2; 1]%R).
Defined.
